(** * fincore: counting the pages of a file that are in core

    A shallow embedding of [rhel8-fincore.c] and the properties of its
    windowed residency scan ([do_mincore], [fincore_fd], [fincore_name],
    [main]).

    Conventions of the embedding.
    - C integers are mathematical integers ([Z]) with the conversion to their
      type written out: [to_int] (32-bit [int]), [to_off] (64-bit signed
      [off_t]) and [to_size] (64-bit unsigned [size_t]).  Where signed
      arithmetic leaves its range, which C does not define, the embedding
      takes the two's complement wrap-around of the machine instruction.
    - The operating system is a record of oracles ([kernel]): what [open],
      [fstat], [mmap] and [mincore] answer, and what the write of [warn] to
      standard error does to [errno].
    - The program state ([state]) holds the static residency vector [vec] of
      [do_mincore], [errno], and a log of the system calls made and of the
      lines written to the standard streams.
    - Loops that the program bounds by the size of a file take a [fuel]
      argument; a run that exhausts it is [OutOfFuel].  An access outside
      [vec] is [Crash]. *)

From Stdlib Require Import ZArith Lia.
From stdpp Require Import base list list_numbers strings.

Open Scope Z_scope.

(** ** Machine integers *)

Definition INT_MAX : Z := 2 ^ 31 - 1.
Definition OFF_MAX : Z := 2 ^ 63 - 1.
Definition SIZE_MAX : Z := 2 ^ 64 - 1.

(** Conversion to [int]. *)
Definition to_int (z : Z) : Z := (z + 2 ^ 31) mod 2 ^ 32 - 2 ^ 31.
(** Conversion to [off_t]. *)
Definition to_off (z : Z) : Z := (z + 2 ^ 63) mod 2 ^ 64 - 2 ^ 63.
(** Conversion to [size_t]. *)
Definition to_size (z : Z) : Z := z mod 2 ^ 64.

Definition EINVAL : Z := 22.
Definition EXIT_SUCCESS : Z := 0.
Definition EXIT_FAILURE : Z := 1.

(** [#define N_PAGES_IN_WINDOW (32 * 1024)] *)
Definition N_PAGES_IN_WINDOW : Z := 32 * 1024.

(** ** The operating system *)

(** A window: the mapping of [m_len] bytes of file [m_fd] from byte
    [m_off] on. *)
Record mapping := Mapping { m_fd : Z; m_off : Z; m_len : Z }.

(** What the system calls of the program answer, as functions of their
    arguments.  A failing call carries its error number, a [positive] that
    fits an [int]. *)
Record kernel := Kernel {
  (** [getpagesize()] *)
  page_size : Z;
  (** [open(name, O_RDONLY)]: an error number, or the descriptor. *)
  k_open : string -> positive + Z;
  (** [fstat(fd, sb)]: an error number, or [st_size]. *)
  k_fstat : Z -> positive + Z;
  (** [mmap(_, len, PROT_NONE, MAP_PRIVATE, fd, off)]: the error number
      when it fails. *)
  k_mmap : Z -> Z -> Z -> option positive;
  (** [mincore] on [len] bytes of the window of [fd] at [off]: the error
      number when it fails. *)
  k_mincore : Z -> Z -> Z -> option positive;
  (** The byte that [mincore] stores for page [p] of file [fd]; its least
      significant bit says whether the page is resident. *)
  k_page_byte : Z -> Z -> Z;
  (** [warn(fmt, name)]: the error number that the write to standard error
      leaves in [errno] when it fails (a closed descriptor, a full device);
      [None] when the line is written. *)
  k_warn : string -> string -> option positive
}.

(** Ceiling division, [(len + pagesize - 1) / pagesize]. *)
Definition cdiv (a b : Z) : Z := (a + b - 1) / b.

(** The bytes that a successful [mincore(window, len, vec)] stores: one for
    each of the [(len + PAGE_SIZE - 1) / PAGE_SIZE] pages of the range, page
    [i] of the window being page [m_off / PAGE_SIZE + i] of the file. *)
Definition mincore_bytes (k : kernel) (window : mapping) (len : Z) : list Z :=
  k_page_byte k (m_fd window)
    <$> seqZ (m_off window / page_size k) (cdiv len (page_size k)).

(** ** Program state *)

(** A line of the report on standard output.  [report_count] prints the
    count, [sb.st_size] and the name; the size is [None] when [sb] was never
    filled in. *)
Inductive report :=
| ReportCount (name : string) (file_size : option Z) (count_incore : Z)
| ReportFailure (name : string).

Inductive event :=
| EOpen (name : string) (ok : bool)
| EFstat (fd : Z) (ok : bool)
| EClose (fd : Z)
| EMmap (fd off len : Z) (ok : bool)
| EMincore (fd off len : Z) (ok : bool)
| EMunmap (fd off len : Z)
| EWarn (msg name : string)
| EWarnx (msg : string)
| EPrint (line : report).

Record state := State {
  (** [static unsigned char vec[N_PAGES_IN_WINDOW]] of [do_mincore] *)
  vec : list Z;
  errno : Z;
  (** system calls and output, oldest first *)
  log : list event
}.

Definition initial_state : state :=
  State (replicate (Z.to_nat N_PAGES_IN_WINDOW) 0) 0 [].

(** ** Computations *)

Inductive result (A : Type) : Type :=
| Ret (a : A) (s : state)
| Crash (s : state)
| OutOfFuel.
Arguments Ret {A} a s.
Arguments Crash {A} s.
Arguments OutOfFuel {A}.

Definition M (A : Type) : Type := state -> result A.

Definition ret {A} (a : A) : M A := fun s => Ret a s.

Definition bind {A B} (m : M A) (f : A -> M B) : M B :=
  fun s =>
    match m s with
    | Ret a s' => f a s'
    | Crash s' => Crash s'
    | OutOfFuel => OutOfFuel
    end.

Declare Scope fincore_scope.
Delimit Scope fincore_scope with fincore.
Notation "x <- c ;; k" := (bind c (fun x => k))
  (at level 100, c at next level, right associativity) : fincore_scope.
Notation "c ;;; k" := (bind c (fun _ => k))
  (at level 100, right associativity) : fincore_scope.
Open Scope fincore_scope.

Definition emit (e : event) : M unit :=
  fun s => Ret tt (State (vec s) (errno s) (log s ++ [e])).

Definition set_errno (e : Z) : M unit :=
  fun s => Ret tt (State (vec s) e (log s)).

Definition get_errno : M Z := fun s => Ret (errno s) s.

Definition out_of_fuel {A} : M A := fun _ => OutOfFuel.

(** [errno] after [warn(fmt, name)] was called with [errno = e]: as it was
    when the line is written, the error number of the write when it fails. *)
Definition warn_errno (k : kernel) (msg name : string) (e : Z) : Z :=
  match k_warn k msg name with
  | Some e' => Z.pos e'
  | None => e
  end.

(** [warn(fmt, name)]: a line for standard error, with the text of [errno];
    the write may fail and change [errno]. *)
Definition warn (k : kernel) (msg name : string) : M unit :=
  emit (EWarn msg name) ;;;
  e <- get_errno ;;
  set_errno (warn_errno k msg name e).
Definition warnx (msg : string) : M unit := emit (EWarnx msg).

(** ** System calls *)

(** [mmap(window, len, PROT_NONE, MAP_PRIVATE, fd, file_offset)]; [None] is
    [MAP_FAILED].  The first argument is only a placement hint. *)
Definition mmap (k : kernel) (len fd file_offset : Z) : M (option mapping) :=
  match k_mmap k fd file_offset len with
  | None =>
      emit (EMmap fd file_offset len true) ;;;
      ret (Some (Mapping fd file_offset len))
  | Some e =>
      emit (EMmap fd file_offset len false) ;;;
      set_errno (Z.pos e) ;;;
      ret None
  end.

Definition munmap (window : mapping) (len : Z) : M unit :=
  emit (EMunmap (m_fd window) (m_off window) len).

(** [mincore(window, len, vec)]: [-1] with [errno] set, or [0] after the
    kernel has stored the bytes of the range from [vec[0]] on.  Bytes past
    the end of [vec] are a [Crash]. *)
Definition mincore (k : kernel) (window : mapping) (len : Z) : M Z :=
  match k_mincore k (m_fd window) (m_off window) len with
  | Some e =>
      emit (EMincore (m_fd window) (m_off window) len false) ;;;
      set_errno (Z.pos e) ;;;
      ret (-1)
  | None =>
      fun s =>
        let bytes := mincore_bytes k window len in
        if (length (vec s) <? length bytes)%nat then Crash s
        else Ret 0 (State (bytes ++ drop (length bytes) (vec s)) (errno s)
                      (log s ++ [EMincore (m_fd window) (m_off window) len true]))
  end.

(** ** [do_mincore] *)

(** [int n = (len / pagesize) + ((len % pagesize)? 1: 0);] with [len] a
    [size_t] and [pagesize] an [int]. *)
Definition page_count (len pagesize : Z) : Z :=
  to_int (to_size (len / to_size pagesize
                   + (if len mod to_size pagesize =? 0 then 0 else 1))).

(** [while (n > 0) if (vec[--n] & 0x1) { vec[n] = 0; ++*count_incore; }]
    on the vector [v]; [None] when an index is outside [v]. *)
Fixpoint count_loop (n : nat) (v : list Z) (count_incore : Z) : option (list Z * Z) :=
  match n with
  | O => Some (v, count_incore)
  | S n' =>
      match v !! n' with
      | None => None
      | Some b =>
          if Z.land b 1 =? 0 then count_loop n' v count_incore
          else count_loop n' (<[n' := 0]> v) (to_off (count_incore + 1))
      end
  end.

Definition count_pages (n : Z) (count_incore : Z) : M Z :=
  fun s =>
    match count_loop (Z.to_nat n) (vec s) count_incore with
    | None => Crash s
    | Some (v, count_incore') => Ret count_incore' (State v (errno s) (log s))
    end.

(** Returns the status and the new value of [*count_incore]. *)
Definition do_mincore (k : kernel) (window : mapping) (len : Z)
    (name : string) (pagesize : Z) (count_incore : Z) : M (Z * Z) :=
  let n := page_count len pagesize in
  r <- mincore k window len ;;
  if r <? 0 then
    warn k "failed to do mincore" name ;;;
    e <- get_errno ;;
    ret (- e, count_incore)
  else
    count_incore <- count_pages n count_incore ;;
    ret (0, count_incore).

(** ** [fincore_fd] *)

(** [size_t window_size = N_PAGES_IN_WINDOW * pagesize;]: a product of two
    [int]s, converted to [size_t]. *)
Definition window_size (pagesize : Z) : Z :=
  to_size (to_int (N_PAGES_IN_WINDOW * pagesize)).

(** [len = file_size - file_offset; if (len >= window_size) len = window_size;] *)
Definition window_len (window_size file_size file_offset : Z) : Z :=
  let len := to_size (to_off (file_size - file_offset)) in
  if len >=? window_size then window_size else len.

(** [file_offset += window_size], an [off_t] and a [size_t]. *)
Definition next_offset (window_size file_offset : Z) : Z :=
  to_off (to_size (to_size file_offset + window_size)).

(** The [for] loop from [file_offset] on; [fuel] bounds the iterations. *)
Fixpoint fincore_fd_loop (fuel : nat) (k : kernel) (fd : Z) (name : string)
    (pagesize file_size window_size file_offset rc : Z) (warned_once : bool)
    (count_incore : Z) : M (Z * Z) :=
  if file_offset <? file_size then
    match fuel with
    | O => out_of_fuel
    | S fuel' =>
        let len := window_len window_size file_size file_offset in
        window <- mmap k len fd file_offset ;;
        match window with
        | None =>
            if negb warned_once then
              warn k "failed to do mmap" name ;;;
              ret (- EINVAL, count_incore)
            else ret (rc, count_incore)
        | Some window =>
            r <- do_mincore k window len name pagesize count_incore ;;
            let '(rc, count_incore) := r in
            if rc =? 0 then
              munmap window len ;;;
              fincore_fd_loop fuel' k fd name pagesize file_size window_size
                (next_offset window_size file_offset) rc warned_once count_incore
            else ret (rc, count_incore)
        end
    end
  else ret (rc, count_incore).

Definition fincore_fd (fuel : nat) (k : kernel) (fd : Z) (name : string)
    (pagesize file_size count_incore : Z) : M (Z * Z) :=
  fincore_fd_loop fuel k fd name pagesize file_size (window_size pagesize)
    0 0 false count_incore.

(** ** [fincore_name] *)

Definition open (k : kernel) (name : string) : M Z :=
  match k_open k name with
  | inl e => emit (EOpen name false) ;;; set_errno (Z.pos e) ;;; ret (-1)
  | inr fd => emit (EOpen name true) ;;; ret fd
  end.

(** [fstat(fd, sb)]: the status, and [sb->st_size] afterwards. *)
Definition fstat (k : kernel) (fd : Z) (sb : option Z) : M (Z * option Z) :=
  match k_fstat k fd with
  | inl e => emit (EFstat fd false) ;;; set_errno (Z.pos e) ;;; ret (-1, sb)
  | inr st_size => emit (EFstat fd true) ;;; ret (0, Some st_size)
  end.

Definition close (fd : Z) : M unit := emit (EClose fd).

(** [sb->st_size] as a condition; a [struct stat] that [fstat] filled in
    always has one. *)
Definition st_size_nonzero (sb : option Z) : bool :=
  match sb with
  | Some st_size => negb (st_size =? 0)
  | None => false
  end.

Definition st_size (sb : option Z) : Z := default 0 sb.

(** Returns the status with the values of [*sb] and [*count_incore]. *)
Definition fincore_name (fuel : nat) (k : kernel) (name : string)
    (pagesize : Z) (sb : option Z) (count_incore : Z) : M (Z * option Z * Z) :=
  fd <- open k name ;;
  if fd <? 0 then
    warn k "failed to open" name ;;;
    ret (0, sb, count_incore)
  else
    r <- fstat k fd sb ;;
    let '(r, sb) := r in
    if r <? 0 then
      warn k "failed to do fstat" name ;;;
      e <- get_errno ;;
      ret (- e, sb, count_incore)
    else
      (* Empty file is no error *)
      r <- (if st_size_nonzero sb
            then fincore_fd fuel k fd name pagesize (st_size sb) count_incore
            else ret (0, count_incore)) ;;
      let '(rc, count_incore) := r in
      close fd ;;;
      ret (rc, sb, count_incore).

(** ** [main] *)

Definition report_count (name : string) (file_size : option Z) (count_incore : Z) : M unit :=
  emit (EPrint (ReportCount name file_size count_incore)).

Definition report_failure (name : string) : M unit :=
  emit (EPrint (ReportFailure name)).

(** The loop over the file operands, [argv[optind]] to [argv[argc - 1]].
    Each round has a fresh [struct stat sb], not initialised, and
    [count_incore = 0]. *)
Fixpoint main_loop (fuel : nat) (k : kernel) (pagesize : Z) (names : list string)
    (rc : Z) : M Z :=
  match names with
  | [] => ret rc
  | name :: names =>
      r <- fincore_name fuel k name pagesize None 0 ;;
      let '(r, sb, count_incore) := r in
      if r =? 0 then
        report_count name sb count_incore ;;;
        main_loop fuel k pagesize names rc
      else
        report_failure name ;;;
        main_loop fuel k pagesize names EXIT_FAILURE
  end.

(** [main] after the options are parsed: [names] are the operands left.
    The result is the exit status. *)
Definition main (fuel : nat) (k : kernel) (names : list string) : M Z :=
  match names with
  | [] =>
      warnx "no file specified" ;;;
      ret EXIT_FAILURE
  | _ => main_loop fuel k (page_size k) names EXIT_SUCCESS
  end.

(** The lines of the report, in order. *)
Definition stdout (l : list event) : list report :=
  omap (fun e => match e with EPrint r => Some r | _ => None end) l.

(** ** Examples *)

(** Every call succeeds, one file of [size] bytes, every page resident. *)
Definition resident_kernel (pagesize size : Z) : kernel :=
  Kernel pagesize (fun _ => inr 3) (fun _ => inr size)
    (fun _ _ _ => None) (fun _ _ _ => None) (fun _ _ => 1) (fun _ _ => None).

(** mmap(2) of Linux: an offset past the largest file ([EOVERFLOW]) and an
    empty range ([EINVAL]) are refused. *)
Definition EINVAL_pos : positive := 22.
Definition EOVERFLOW_pos : positive := 75.

Definition checked_mmap (fd off len : Z) : option positive :=
  if off <? 0 then Some EOVERFLOW_pos
  else if len =? 0 then Some EINVAL_pos
  else None.

(** As [resident_kernel], with the checks of [checked_mmap]. *)
Definition linux_kernel (pagesize size : Z) : kernel :=
  Kernel pagesize (fun _ => inr 3) (fun _ => inr size)
    checked_mmap (fun _ _ _ => None) (fun _ _ => 1) (fun _ _ => None).

(** ** Specification vocabulary *)

(** The residency flag of a byte of the vector: its least significant bit. *)
Definition resident_flag (b : Z) : Z := Z.land b 1.

(** The number of resident pages among the bytes [l]. *)
Definition sum_flags (l : list Z) : Z :=
  foldr (fun b acc => resident_flag b + acc) 0 l.

(** What the counting loop leaves in an entry of the vector. *)
Definition clear_flag (b : Z) : Z := if resident_flag b =? 0 then b else 0.

(** The resident pages among the [n] pages of file [fd] from page [lo] on,
    as the query reports them. *)
Definition resident_pages (k : kernel) (fd lo n : Z) : Z :=
  sum_flags (k_page_byte k fd <$> seqZ lo n).

(** [window_capacity = window_page_count * page_size], in bytes. *)
Definition window_capacity (pagesize : Z) : Z := N_PAGES_IN_WINDOW * pagesize.

(** The page sizes for which the capacity of a window fits an [int]. *)
Definition capacity_fits (pagesize : Z) : Prop :=
  0 < pagesize /\ window_capacity pagesize <= INT_MAX.

(** The file sizes whose last window ends within the range of [off_t]. *)
Definition offsets_fit (pagesize file_size : Z) : Prop :=
  0 <= file_size /\ file_size + window_capacity pagesize <= OFF_MAX.

(** Window [i] of a file: its first byte and its length. *)
Definition window_start (pagesize : Z) (i : nat) : Z :=
  Z.of_nat i * window_capacity pagesize.
Definition window_length (pagesize file_size : Z) (i : nat) : Z :=
  Z.min (window_capacity pagesize) (file_size - window_start pagesize i).

(** The number of windows of a file. *)
Definition window_count (pagesize file_size : Z) : nat :=
  Z.to_nat (cdiv file_size (window_capacity pagesize)).

(** The pages of a file in its windows before window [i]. *)
Definition pages_before (pagesize file_size : Z) (i : nat) : Z :=
  cdiv (Z.min (window_start pagesize i) file_size) pagesize.

(** The kernel maps and queries window [i] of the file without failure. *)
Definition window_ok (k : kernel) (fd file_size : Z) (i : nat) : Prop :=
  k_mmap k fd (window_start (page_size k) i)
    (window_length (page_size k) file_size i) = None
  /\ k_mincore k fd (window_start (page_size k) i)
    (window_length (page_size k) file_size i) = None.

(** The calls of a round of the loop that succeeds. *)
Definition window_events (fd off len : Z) : list event :=
  [EMmap fd off len true; EMincore fd off len true; EMunmap fd off len].

(** The calls of the rounds for windows [i], ..., [i + j - 1]. *)
Definition windows_events (pagesize file_size fd : Z) (i j : nat) : list event :=
  flat_map (fun i => window_events fd (window_start pagesize i)
                       (window_length pagesize file_size i)) (seq i j).

(** The state after a round that succeeds. *)
Definition after_window (k : kernel) (fd off len : Z) (s : state) : state :=
  let bytes := mincore_bytes k (Mapping fd off len) len in
  State ((clear_flag <$> bytes) ++ drop (length bytes) (vec s)) (errno s)
    (log s ++ window_events fd off len).

(** The array [vec] has its declared size. *)
Definition vec_sized (s : state) : Prop :=
  length (vec s) = Z.to_nat N_PAGES_IN_WINDOW.

(** What a run returned, and the log it left. *)
Definition returned {A} (r : result A) : option A :=
  match r with Ret a _ => Some a | _ => None end.

Definition final_log {A} (r : result A) : list event :=
  match r with Ret _ s | Crash s => log s | OutOfFuel => [] end.

Definition crashed {A} (r : result A) : bool :=
  match r with Crash _ => true | _ => false end.

(** Counting the events of a kind. *)
Definition count_events (f : event -> bool) (l : list event) : nat :=
  length (List.filter f l).

Definition is_mmap (e : event) : bool :=
  match e with EMmap _ _ _ _ => true | _ => false end.

Definition is_mincore (e : event) : bool :=
  match e with EMincore _ _ _ _ => true | _ => false end.

Definition is_warning (e : event) : bool :=
  match e with EWarn _ _ => true | _ => false end.

Definition is_failed_mmap (e : event) : bool :=
  match e with EMmap _ _ _ false => true | _ => false end.

Definition is_failed_mincore (e : event) : bool :=
  match e with EMincore _ _ _ false => true | _ => false end.

(** The calls and warnings of a run of the loop of [fincore_fd] that returns,
    with the status before and after: rounds that succeed, ended by the
    condition of the loop, by a failed [mmap] or by a failed [mincore]. *)
Inductive scan_trace (k : kernel) (fd : Z) (name : string) :
    Z -> list event -> Z -> Prop :=
| scan_end rc :
    scan_trace k fd name rc [] rc
| scan_mmap_failed rc off len e :
    k_mmap k fd off len = Some e ->
    scan_trace k fd name rc
      [EMmap fd off len false; EWarn "failed to do mmap" name] (- EINVAL)
| scan_mincore_failed rc off len e :
    k_mmap k fd off len = None ->
    k_mincore k fd off len = Some e ->
    scan_trace k fd name rc
      [EMmap fd off len true; EMincore fd off len false;
       EWarn "failed to do mincore" name]
      (- warn_errno k "failed to do mincore" name (Z.pos e))
| scan_window rc off len t rc' :
    k_mmap k fd off len = None ->
    k_mincore k fd off len = None ->
    scan_trace k fd name 0 t rc' ->
    scan_trace k fd name rc (window_events fd off len ++ t) rc'.

(** The second window of the file cannot be mapped. *)
Definition ENOMEM_pos : positive := 12.

Definition second_window_unmapped (pagesize size : Z) : kernel :=
  Kernel pagesize (fun _ => inr 3) (fun _ => inr size)
    (fun _ off _ => if off =? 0 then None else Some ENOMEM_pos)
    (fun _ _ _ => None) (fun _ _ => 1) (fun _ _ => None).

(** The query on the second window of the file fails. *)
Definition second_window_unqueried (pagesize size : Z) : kernel :=
  Kernel pagesize (fun _ => inr 3) (fun _ => inr size)
    (fun _ _ _ => None)
    (fun _ off _ => if off =? 0 then None else Some ENOMEM_pos)
    (fun _ _ => 1) (fun _ _ => None).

(** The query on the file fails with [EAGAIN]; [stderr_error] is what the
    write of a warning leaves in [errno]: nothing, or an error number such
    as [EBADF] when descriptor 2 is closed. *)
Definition EAGAIN_pos : positive := 11.
Definition EBADF_pos : positive := 9.

Definition unqueried (pagesize size : Z) (stderr_error : option positive) : kernel :=
  Kernel pagesize (fun _ => inr 3) (fun _ => inr size)
    (fun _ _ _ => None) (fun _ _ _ => Some EAGAIN_pos) (fun _ _ => 1)
    (fun _ _ => stderr_error).

(** The file is opened and [fstat] on it fails. *)
Definition EIO_pos : positive := 5.

Definition no_stat (pagesize : Z) : kernel :=
  Kernel pagesize (fun _ => inr 3) (fun _ => inl EIO_pos)
    (fun _ _ _ => None) (fun _ _ _ => None) (fun _ _ => 0) (fun _ _ => None).

(** No file can be opened. *)
Definition ENOENT_pos : positive := 2.

Definition no_such_file (pagesize : Z) : kernel :=
  Kernel pagesize (fun _ => inl ENOENT_pos) (fun _ => inl ENOENT_pos)
    (fun _ _ _ => None) (fun _ _ _ => None) (fun _ _ => 0) (fun _ _ => None).

(** ** Closing the standard streams *)

Definition EOF : Z := -1.
Definition EBADF : Z := 9.
Definition EPIPE : Z := 32.

(** [#define CLOSE_EXIT_CODE EXIT_FAILURE] *)
Definition CLOSE_EXIT_CODE : Z := EXIT_FAILURE.

(** A [FILE] at the time it is closed: the bytes still in its buffer
    ([__fpending]), its error indicator ([ferror]), and the error number of
    [fclose] when it fails.  A call that succeeds leaves [errno] as it is. *)
Record stream := Stream {
  fpending : Z;
  ferror : bool;
  fclose_errno : option positive
}.

(** [close_stream(stream)] from a given [errno]: the result and [errno]
    afterwards. *)
Definition close_stream (stream : stream) (errno : Z) : Z * Z :=
  let some_pending := negb (fpending stream =? 0) in
  let prev_fail := ferror stream in
  let fclose_fail := match fclose_errno stream with Some _ => true | None => false end in
  let errno := match fclose_errno stream with Some e => Z.pos e | None => errno end in
  if prev_fail || (fclose_fail && (some_pending || negb (errno =? EBADF))) then
    let errno :=
      if negb fclose_fail && negb (errno =? EPIPE) then 0 else errno in
    (EOF, errno)
  else (0, errno).

(** What [close_stdout] writes before it leaves: [warn("write error")], with
    the text of [errno], or [warnx("write error")]. *)
Inductive write_error :=
| WriteErrorErrno (errno : Z)
| WriteErrorPlain.

(** How [close_stdout] ends: it returns, or it calls [_exit], after a
    message or without one. *)
Inductive close_outcome :=
| Returned
| Exited (status : Z) (message : option write_error).

(** [close_stdout()] on the states of [stdout] and [stderr]. *)
Definition close_stdout (out err : stream) (errno : Z) : close_outcome :=
  let '(r, errno) := close_stream out errno in
  if negb (r =? 0) && negb (errno =? EPIPE) then
    Exited CLOSE_EXIT_CODE
      (Some (if negb (errno =? 0) then WriteErrorErrno errno else WriteErrorPlain))
  else
    let '(r, errno) := close_stream err errno in
    if negb (r =? 0) then Exited CLOSE_EXIT_CODE None
    else Returned.

(** ** More vocabulary *)

Definition is_munmap (e : event) : bool :=
  match e with EMunmap _ _ _ => true | _ => false end.

Definition is_close (e : event) : bool :=
  match e with EClose _ => true | _ => false end.

(** The bytes of the windows that were mapped. *)
Definition mapped_bytes (l : list event) : Z :=
  foldr (fun e acc => match e with EMmap _ _ len true => len + acc | _ => acc end)
    0 l.

(** A call of [mmap] on a window of the file: from a page boundary inside
    the file, not empty, no longer than the capacity of a window and not
    past the end of the file. *)
Definition mmap_call_in_file (pagesize file_size : Z) (e : event) : Prop :=
  match e with
  | EMmap _ off len _ =>
      0 <= off /\ off mod pagesize = 0
      /\ 0 < len <= window_capacity pagesize
      /\ off + len <= file_size
  | _ => True
  end.

(** The calls of rounds that succeed, one for each window, a window being
    given by its offset and its length: each is the [mmap] of the window,
    the query on it and the [munmap] of the same window. *)
Definition rounds_events (fd : Z) (rounds : list (Z * Z)) : list event :=
  flat_map (fun w => window_events fd (fst w) (snd w)) rounds.

(** How the log of a scan ends after its last round that succeeds: with
    nothing more, with an [mmap] that fails and its warning, or with the
    [mmap] of a window, the query on it that fails and its warning. *)
Definition scan_tail (fd : Z) (name : string) (tail : list event) : Prop :=
  tail = []
  \/ (exists off len,
        tail = [EMmap fd off len false; EWarn "failed to do mmap" name])
  \/ (exists off len,
        tail = [EMmap fd off len true; EMincore fd off len false;
                EWarn "failed to do mincore" name]).

(** The file of a line of the report, and whether it is the failure line. *)
Definition report_name (r : report) : string :=
  match r with ReportCount name _ _ | ReportFailure name => name end.

Definition is_failure_line (r : report) : bool :=
  match r with ReportFailure _ => true | ReportCount _ _ _ => false end.

(** A stream that was written and closes without error; one that the reader
    has closed; one whose write failed earlier. *)
Definition clean_stream : stream := Stream 0 false None.
Definition broken_pipe : stream := Stream 10 true (Some 32%positive).
Definition failed_write : stream := Stream 0 true None.

(** * Properties *)

(** Goals about the limits of the integer types and the size of a window,
    once the constants are unfolded, are linear. *)
Ltac limits :=
  unfold capacity_fits, offsets_fit, window_capacity, N_PAGES_IN_WINDOW,
    INT_MAX, OFF_MAX, SIZE_MAX in *;
  lia.

(** ** Machine integers *)

Lemma to_size_small z : 0 <= z <= SIZE_MAX -> to_size z = z.
Proof. unfold to_size, SIZE_MAX. intros H. apply Z.mod_small. lia. Qed.

Lemma to_off_small z : - OFF_MAX - 1 <= z <= OFF_MAX -> to_off z = z.
Proof.
  unfold to_off, OFF_MAX. intros H.
  rewrite Z.mod_small; lia.
Qed.

Lemma to_int_small z : - INT_MAX - 1 <= z <= INT_MAX -> to_int z = z.
Proof.
  unfold to_int, INT_MAX. intros H.
  rewrite Z.mod_small; lia.
Qed.

(** ** Ceiling division *)

Lemma cdiv_floor a b :
  0 < b -> a / b + (if a mod b =? 0 then 0 else 1) = cdiv a b.
Proof.
  intros Hb. unfold cdiv.
  pose proof (Z.div_mod a b ltac:(lia)) as Hdm.
  pose proof (Z.mod_pos_bound a b Hb) as Hr.
  destruct (Z.eqb_spec (a mod b) 0) as [H0|H0].
  - apply (Z.div_unique _ _ _ (b - 1)); lia.
  - apply (Z.div_unique _ _ _ (a mod b - 1)); lia.
Qed.

Lemma cdiv_nonneg a b : 0 < b -> 0 <= a -> 0 <= cdiv a b.
Proof. intros Hb Ha. unfold cdiv. apply Z.div_pos; lia. Qed.

Lemma cdiv_le_mul a b n : 0 < b -> a <= n * b -> cdiv a b <= n.
Proof.
  intros Hb Ha. unfold cdiv.
  apply Z.lt_succ_r. apply Z.div_lt_upper_bound; lia.
Qed.

Lemma cdiv_mul n b : 0 < b -> cdiv (n * b) b = n.
Proof.
  intros Hb. unfold cdiv. symmetry.
  apply (Z.div_unique _ _ _ (b - 1)); lia.
Qed.

Lemma cdiv_add_mul a n b : 0 < b -> cdiv (n * b + a) b = n + cdiv a b.
Proof.
  intros Hb. unfold cdiv.
  replace (n * b + a + b - 1) with (a + b - 1 + n * b) by lia.
  rewrite Z.div_add by lia. lia.
Qed.

Lemma cdiv_le_self a b : 0 < b -> 0 <= a -> cdiv a b <= a.
Proof.
  intros Hb Ha. unfold cdiv.
  destruct (Z.eq_dec a 0) as [->|Hne].
  - rewrite Z.div_small; lia.
  - apply Z.lt_succ_r. apply Z.div_lt_upper_bound; nia.
Qed.

(** The page count of [do_mincore] is the ceiling of [len / pagesize] as long
    as that fits an [int]. *)
Lemma page_count_cdiv len pagesize :
  0 < pagesize <= INT_MAX -> 0 <= len <= SIZE_MAX ->
  cdiv len pagesize <= INT_MAX ->
  page_count len pagesize = cdiv len pagesize.
Proof.
  intros Hp Hl Hc. unfold page_count.
  assert (Hps : to_size pagesize = pagesize).
  { apply to_size_small. unfold INT_MAX, SIZE_MAX in *. lia. }
  rewrite Hps, cdiv_floor by lia.
  pose proof (cdiv_nonneg len pagesize ltac:(lia) ltac:(lia)).
  rewrite to_size_small by (unfold INT_MAX, SIZE_MAX in *; lia).
  apply to_int_small. unfold INT_MAX in *. lia.
Qed.

(** ** Residency flags *)

Lemma resident_flag_cases b : resident_flag b = 0 \/ resident_flag b = 1.
Proof.
  unfold resident_flag. change (Z.land b 1) with (Z.land b (Z.ones 1)).
  rewrite Z.land_ones by lia. change (2 ^ 1) with 2.
  pose proof (Z.mod_pos_bound b 2 eq_refl) as H. lia.
Qed.

Lemma sum_flags_app l1 l2 : sum_flags (l1 ++ l2) = sum_flags l1 + sum_flags l2.
Proof.
  induction l1 as [|b l1 IH]; simpl; [reflexivity|].
  fold (sum_flags (l1 ++ l2)). fold (sum_flags l1). lia.
Qed.

Lemma sum_flags_bounds l : 0 <= sum_flags l <= Z.of_nat (length l).
Proof.
  induction l as [|b l IH]; simpl; [lia|].
  fold (sum_flags l). destruct (resident_flag_cases b); lia.
Qed.

Lemma sum_flags_all_resident l :
  Forall (fun b => resident_flag b = 1) l -> sum_flags l = Z.of_nat (length l).
Proof.
  induction 1 as [|b l Hb _ IH]; simpl; [reflexivity|].
  fold (sum_flags l). lia.
Qed.

Lemma resident_pages_app k fd lo n1 n2 :
  0 <= n1 -> 0 <= n2 ->
  resident_pages k fd lo (n1 + n2)
  = resident_pages k fd lo n1 + resident_pages k fd (lo + n1) n2.
Proof.
  intros H1 H2. unfold resident_pages.
  rewrite seqZ_app, fmap_app, sum_flags_app by lia. reflexivity.
Qed.

Lemma resident_pages_all_resident k fd lo n :
  0 <= n ->
  (forall p, lo <= p < lo + n -> resident_flag (k_page_byte k fd p) = 1) ->
  resident_pages k fd lo n = n.
Proof.
  intros Hn Hall. unfold resident_pages.
  rewrite sum_flags_all_resident.
  - rewrite length_fmap, length_seqZ. lia.
  - apply Forall_fmap, Forall_seqZ. intros p Hp. apply Hall. lia.
Qed.

Lemma resident_pages_bounds k fd lo n :
  0 <= n -> 0 <= resident_pages k fd lo n <= n.
Proof.
  intros Hn. unfold resident_pages.
  pose proof (sum_flags_bounds (k_page_byte k fd <$> seqZ lo n)) as H.
  rewrite length_fmap, length_seqZ in H. lia.
Qed.

(** ** The counting loop *)

(** On a vector that starts with the bytes of the query, the loop over their
    number adds the resident ones and clears their entries. *)
Lemma count_loop_app bytes rest c :
  - OFF_MAX - 1 <= c -> c + Z.of_nat (length bytes) <= OFF_MAX ->
  count_loop (length bytes) (bytes ++ rest) c
  = Some ((clear_flag <$> bytes) ++ rest, c + sum_flags bytes).
Proof.
  revert rest c. induction bytes as [|b bs IH] using rev_ind; intros rest c Hlo Hhi.
  - simpl. do 2 f_equal. lia.
  - rewrite length_app in *. simpl in *.
    rewrite Nat.add_1_r. simpl.
    rewrite <- app_assoc. simpl.
    rewrite list_lookup_middle by reflexivity.
    rewrite fmap_app, sum_flags_app, <- app_assoc. simpl.
    unfold clear_flag at 2. fold (resident_flag b).
    destruct (resident_flag_cases b) as [Hb|Hb]; rewrite Hb; simpl.
    + rewrite IH by lia. do 2 f_equal. lia.
    + rewrite insert_app_r_alt by lia.
      rewrite Nat.sub_diag. simpl.
      rewrite to_off_small by lia.
      rewrite IH by lia. do 2 f_equal. lia.
Qed.

(** ** Logs *)

Lemma stdout_app l1 l2 : stdout (l1 ++ l2) = stdout l1 ++ stdout l2.
Proof. apply omap_app. Qed.

Lemma count_events_app f l1 l2 :
  count_events f (l1 ++ l2) = (count_events f l1 + count_events f l2)%nat.
Proof. unfold count_events. rewrite List.filter_app, length_app. reflexivity. Qed.

(** ** [warn] and [errno] *)

(** [warn] leaves an error number in [errno] when it finds one there. *)
Lemma warn_errno_pos k msg name e : 0 < e -> 0 < warn_errno k msg name e.
Proof. unfold warn_errno. destruct (k_warn k msg name); lia. Qed.

Lemma warn_errno_status k msg name e :
  (- warn_errno k msg name (Z.pos e) =? 0) = false.
Proof.
  pose proof (warn_errno_pos k msg name (Z.pos e) ltac:(lia)).
  apply Z.eqb_neq. lia.
Qed.

Lemma warn_errno_nonzero k msg name e :
  - warn_errno k msg name (Z.pos e) <> 0.
Proof. pose proof (warn_errno_pos k msg name (Z.pos e) ltac:(lia)). lia. Qed.

Lemma warn_errno_written k msg name e :
  k_warn k msg name = None -> warn_errno k msg name e = e.
Proof. unfold warn_errno. intros ->. reflexivity. Qed.

(** ** [do_mincore] *)

Lemma length_mincore_bytes k window len :
  length (mincore_bytes k window len) = Z.to_nat (cdiv len (page_size k)).
Proof. unfold mincore_bytes. rewrite length_fmap, length_seqZ. reflexivity. Qed.

Lemma do_mincore_fail k window len name pagesize count s e :
  k_mincore k (m_fd window) (m_off window) len = Some e ->
  do_mincore k window len name pagesize count s
  = Ret (- warn_errno k "failed to do mincore" name (Z.pos e), count)
      (State (vec s) (warn_errno k "failed to do mincore" name (Z.pos e))
         (log s ++ [EMincore (m_fd window) (m_off window) len false;
                    EWarn "failed to do mincore" name])).
Proof.
  intros He. unfold do_mincore, bind, mincore. rewrite He.
  unfold warn, bind, emit, set_errno, ret, get_errno. simpl.
  rewrite <- app_assoc. reflexivity.
Qed.

Lemma do_mincore_ok k fd off len name count s :
  k_mincore k fd off len = None ->
  0 < page_size k <= INT_MAX ->
  0 <= len <= window_capacity (page_size k) ->
  window_capacity (page_size k) <= SIZE_MAX ->
  vec_sized s ->
  - OFF_MAX - 1 <= count -> count + cdiv len (page_size k) <= OFF_MAX ->
  let bytes := mincore_bytes k (Mapping fd off len) len in
  do_mincore k (Mapping fd off len) len name (page_size k) count s
  = Ret (0, count + sum_flags bytes)
      (State ((clear_flag <$> bytes) ++ drop (length bytes) (vec s)) (errno s)
         (log s ++ [EMincore fd off len true])).
Proof.
  intros Hk Hps Hlen Hcap Hvec Hlo Hhi bytes.
  assert (Hn : 0 <= cdiv len (page_size k) <= N_PAGES_IN_WINDOW).
  { split; [apply cdiv_nonneg; lia|].
    apply cdiv_le_mul; [lia|]. unfold window_capacity in Hlen. lia. }
  assert (Hlb : length bytes = Z.to_nat (cdiv len (page_size k)))
    by apply length_mincore_bytes.
  unfold do_mincore, bind, mincore. simpl. rewrite Hk. fold bytes.
  red in Hvec.
  destruct (Nat.ltb_spec (length (vec s)) (length bytes)) as [Hlt|Hge]; [lia|].
  simpl. unfold count_pages. simpl.
  rewrite page_count_cdiv; [|lia|lia|unfold N_PAGES_IN_WINDOW, INT_MAX in *; lia].
  rewrite <- Hlb. rewrite count_loop_app by lia.
  reflexivity.
Qed.

Lemma count_loop_length n : forall v c v' c',
  count_loop n v c = Some (v', c') -> length v' = length v.
Proof.
  induction n as [|n IH]; intros v c v' c' H; simpl in H.
  - injection H as <- _. reflexivity.
  - destruct (v !! n) as [b|]; [|discriminate].
    destruct (Z.land b 1 =? 0).
    + eapply IH. exact H.
    + apply IH in H. rewrite H. apply length_insert.
Qed.

(** What a call of [do_mincore] that returns has done. *)
Lemma do_mincore_returns k window len name pagesize count s rc c s' :
  do_mincore k window len name pagesize count s = Ret (rc, c) s' ->
  (exists e,
     k_mincore k (m_fd window) (m_off window) len = Some e
     /\ rc = - warn_errno k "failed to do mincore" name (Z.pos e)
     /\ c = count
     /\ errno s' = warn_errno k "failed to do mincore" name (Z.pos e)
     /\ log s' = log s ++ [EMincore (m_fd window) (m_off window) len false;
                            EWarn "failed to do mincore" name])
  \/ (k_mincore k (m_fd window) (m_off window) len = None
      /\ rc = 0 /\ errno s' = errno s
      /\ log s' = log s ++ [EMincore (m_fd window) (m_off window) len true]
      /\ (length (mincore_bytes k window len) <= length (vec s))%nat
      /\ length (vec s') = length (vec s)).
Proof.
  intros Hrun.
  destruct (k_mincore k (m_fd window) (m_off window) len) as [e|] eqn:He.
  - left. exists e. rewrite (do_mincore_fail _ _ _ _ _ _ _ e He) in Hrun.
    injection Hrun as <- <- <-. auto.
  - right. unfold do_mincore, bind, mincore in Hrun. rewrite He in Hrun.
    destruct (Nat.ltb_spec (length (vec s))
                (length (mincore_bytes k window len))) as [Hlt|Hge];
      [discriminate|].
    simpl in Hrun. unfold count_pages in Hrun. simpl in Hrun.
    destruct (count_loop _ _ _) as [[v c0]|] eqn:Hloop; [|discriminate].
    apply count_loop_length in Hloop.
    injection Hrun as <- <- <-. simpl.
    rewrite Hloop, length_app, length_drop. repeat split; auto; lia.
Qed.

(** ** One round of the loop of [fincore_fd] *)

Lemma loop_done fuel k fd name pagesize file_size wsize off rc warned count s :
  file_size <= off ->
  fincore_fd_loop fuel k fd name pagesize file_size wsize off rc warned count s
  = Ret (rc, count) s.
Proof.
  intros H. destruct fuel; simpl;
    (destruct (Z.ltb_spec off file_size); [lia|reflexivity]).
Qed.

(** A window that cannot be mapped ends the loop at once, with one warning. *)
Lemma loop_mmap_fail fuel k fd name pagesize file_size wsize off rc count s e :
  off < file_size ->
  k_mmap k fd off (window_len wsize file_size off) = Some e ->
  fincore_fd_loop (S fuel) k fd name pagesize file_size wsize off rc false count s
  = Ret (- EINVAL, count)
      (State (vec s) (warn_errno k "failed to do mmap" name (Z.pos e))
         (log s ++ [EMmap fd off (window_len wsize file_size off) false;
                    EWarn "failed to do mmap" name])).
Proof.
  intros Hoff He. simpl.
  destruct (Z.ltb_spec off file_size); [|lia].
  unfold bind, mmap. rewrite He.
  unfold warn, bind, emit, set_errno, ret, get_errno. simpl.
  rewrite <- app_assoc. reflexivity.
Qed.

(** A query that fails ends the loop at once with minus [errno] as the
    warning leaves it; the window stays mapped. *)
Lemma loop_mincore_fail fuel k fd name pagesize file_size wsize off rc warned
    count s e :
  off < file_size ->
  k_mmap k fd off (window_len wsize file_size off) = None ->
  k_mincore k fd off (window_len wsize file_size off) = Some e ->
  fincore_fd_loop (S fuel) k fd name pagesize file_size wsize off rc warned count s
  = Ret (- warn_errno k "failed to do mincore" name (Z.pos e), count)
      (State (vec s) (warn_errno k "failed to do mincore" name (Z.pos e))
         (log s ++ [EMmap fd off (window_len wsize file_size off) true;
                    EMincore fd off (window_len wsize file_size off) false;
                    EWarn "failed to do mincore" name])).
Proof.
  intros Hoff Hm He. simpl.
  destruct (Z.ltb_spec off file_size); [|lia].
  unfold bind at 1. unfold mmap. rewrite Hm.
  unfold bind at 1. unfold emit at 1. unfold ret at 1.
  unfold bind at 1.
  rewrite (do_mincore_fail k (Mapping fd off _) _ name pagesize count _ e) by exact He.
  rewrite warn_errno_status. simpl. rewrite <- app_assoc. reflexivity.
Qed.

(** A round whose window is mapped. *)
Lemma loop_round fuel k fd name pagesize file_size wsize off rc warned count s :
  off < file_size ->
  k_mmap k fd off (window_len wsize file_size off) = None ->
  let len := window_len wsize file_size off in
  fincore_fd_loop (S fuel) k fd name pagesize file_size wsize off rc warned count s
  = match do_mincore k (Mapping fd off len) len name pagesize count
            (State (vec s) (errno s) (log s ++ [EMmap fd off len true])) with
    | Ret (rc1, c1) s1 =>
        if rc1 =? 0 then
          fincore_fd_loop fuel k fd name pagesize file_size wsize
            (next_offset wsize off) rc1 warned c1
            (State (vec s1) (errno s1) (log s1 ++ [EMunmap fd off len]))
        else Ret (rc1, c1) s1
    | Crash s1 => Crash s1
    | OutOfFuel => OutOfFuel
    end.
Proof.
  intros Hoff Hm len. simpl.
  destruct (Z.ltb_spec off file_size); [|lia].
  unfold bind at 1. unfold mmap. rewrite Hm.
  unfold bind at 1. unfold emit at 1. unfold ret at 1.
  unfold bind at 1. fold len.
  destruct (do_mincore _ _ _ _ _ _ _) as [[rc1 c1] s1|s1|]; try reflexivity.
  destruct (rc1 =? 0); reflexivity.
Qed.

(** The log of a run of the loop that returns. *)
Lemma fincore_fd_loop_trace fuel k fd name pagesize file_size wsize :
  forall off rc count s rc' c' s',
  fincore_fd_loop fuel k fd name pagesize file_size wsize off rc false count s
  = Ret (rc', c') s' ->
  exists t, log s' = log s ++ t /\ scan_trace k fd name rc t rc'.
Proof.
  induction fuel as [|fuel IH]; intros off rc count s rc' c' s' Hrun.
  - simpl in Hrun. destruct (off <? file_size); [discriminate|].
    injection Hrun as <- _ <-. exists []. rewrite app_nil_r.
    split; [reflexivity|constructor].
  - destruct (Z.lt_ge_cases off file_size) as [Hoff|Hoff].
    + destruct (k_mmap k fd off (window_len wsize file_size off)) as [e|] eqn:Hm.
      * rewrite (loop_mmap_fail _ _ _ _ _ _ _ _ _ _ _ e Hoff Hm) in Hrun.
        injection Hrun as <- _ <-. eexists. split; [reflexivity|].
        econstructor. exact Hm.
      * rewrite loop_round in Hrun by assumption.
        destruct (do_mincore _ _ _ _ _ _ _) as [[rc1 c1] s1|s1|] eqn:Hdm;
          try discriminate.
        apply do_mincore_returns in Hdm.
        destruct Hdm as [(e & He & -> & -> & _ & Hlog)|(Hq & -> & _ & Hlog & _)];
          [rewrite warn_errno_status in Hrun|]; simpl in *.
        -- injection Hrun as <- _ <-. rewrite Hlog, <- app_assoc.
           eexists. split; [reflexivity|]. simpl.
           econstructor; eassumption.
        -- apply IH in Hrun. destruct Hrun as (t & Ht & Htrace).
           simpl in Ht. rewrite Hlog, <- !app_assoc in Ht.
           exists (window_events fd off (window_len wsize file_size off) ++ t).
           split; [exact Ht|]. constructor; assumption.
    + rewrite loop_done in Hrun by lia.
      injection Hrun as <- _ <-. exists []. rewrite app_nil_r.
      split; [reflexivity|constructor].
Qed.

Lemma fincore_fd_trace fuel k fd name pagesize file_size count s rc c s' :
  fincore_fd fuel k fd name pagesize file_size count s = Ret (rc, c) s' ->
  exists t, log s' = log s ++ t /\ scan_trace k fd name 0 t rc.
Proof. apply fincore_fd_loop_trace. Qed.

(** A run has at most one failed [mmap]; it then ends with it and its one
    warning, and with [-EINVAL]. *)
Lemma scan_trace_mmap k fd name rc t rc' :
  scan_trace k fd name rc t rc' ->
  count_events is_failed_mmap t = 0%nat
  \/ (exists rounds off len,
        t = rounds ++ [EMmap fd off len false; EWarn "failed to do mmap" name]
        /\ count_events is_failed_mmap rounds = 0%nat
        /\ count_events is_warning rounds = 0%nat
        /\ k_mmap k fd off len <> None
        /\ rc' = - EINVAL).
Proof.
  induction 1 as [rc|rc off len e Hm|rc off len e Hm Hq|rc off len t rc' Hm Hq _ IH].
  - left. reflexivity.
  - right. exists [], off, len. rewrite Hm. repeat split; discriminate.
  - left. reflexivity.
  - destruct IH as [IH|(rounds & off' & len' & -> & Hf & Hw & Hk & ->)].
    + left. rewrite count_events_app, IH. reflexivity.
    + right. exists (window_events fd off len ++ rounds), off', len'.
      rewrite <- app_assoc, !count_events_app, Hf, Hw. repeat split. exact Hk.
Qed.

(** A run has at most one failed [mincore]; it then ends with the [mmap] of
    its window, the failed query and its warning, and with minus [errno] as
    the warning leaves it. *)
Lemma scan_trace_mincore k fd name rc t rc' :
  scan_trace k fd name rc t rc' ->
  count_events is_failed_mincore t = 0%nat
  \/ (exists rounds off len e,
        t = rounds ++ [EMmap fd off len true; EMincore fd off len false;
                       EWarn "failed to do mincore" name]
        /\ count_events is_failed_mincore rounds = 0%nat
        /\ count_events is_warning rounds = 0%nat
        /\ k_mincore k fd off len = Some e
        /\ rc' = - warn_errno k "failed to do mincore" name (Z.pos e)).
Proof.
  induction 1 as [rc|rc off len e Hm|rc off len e Hm Hq|rc off len t rc' Hm Hq _ IH].
  - left. reflexivity.
  - left. reflexivity.
  - right. exists [], off, len, e. repeat split; assumption.
  - destruct IH as [IH|(rounds & off' & len' & e & -> & Hf & Hw & Hk & ->)].
    + left. rewrite count_events_app, IH. reflexivity.
    + right. exists (window_events fd off len ++ rounds), off', len', e.
      rewrite <- app_assoc, !count_events_app, Hf, Hw. repeat split. exact Hk.
Qed.

(** A run prints nothing on standard output. *)
Lemma scan_trace_stdout k fd name rc t rc' :
  scan_trace k fd name rc t rc' -> stdout t = [].
Proof.
  induction 1 as [rc|rc off len e Hm|rc off len e Hm Hq|rc off len t rc' Hm Hq _ IH];
    try reflexivity.
  rewrite stdout_app, IH. reflexivity.
Qed.

Lemma window_size_exact pagesize :
  capacity_fits pagesize -> window_size pagesize = window_capacity pagesize.
Proof.
  intros [Hp Hc]. unfold window_size, window_capacity in *.
  assert (0 <= N_PAGES_IN_WINDOW * pagesize) by (unfold N_PAGES_IN_WINDOW; lia).
  rewrite to_int_small by lia.
  apply to_size_small. unfold INT_MAX, SIZE_MAX in *. lia.
Qed.

Lemma window_len_min wsize file_size off :
  0 <= off < file_size -> file_size <= OFF_MAX -> 0 <= wsize ->
  window_len wsize file_size off = Z.min wsize (file_size - off).
Proof.
  intros Hoff Hfs Hw. unfold window_len.
  rewrite to_off_small by lia.
  rewrite to_size_small by (unfold OFF_MAX, SIZE_MAX in *; lia).
  destruct (Z.geb_spec (file_size - off) wsize); lia.
Qed.

Lemma next_offset_exact wsize off :
  0 <= off -> 0 <= wsize -> off + wsize <= OFF_MAX ->
  next_offset wsize off = off + wsize.
Proof.
  intros Ho Hw Hs. unfold next_offset.
  rewrite (to_size_small off) by (unfold OFF_MAX, SIZE_MAX in *; lia).
  rewrite to_size_small by (unfold OFF_MAX, SIZE_MAX in *; lia).
  apply to_off_small. lia.
Qed.

(** ** Windows *)

Lemma window_start_S pagesize i :
  window_start pagesize (S i) = window_start pagesize i + window_capacity pagesize.
Proof. unfold window_start. lia. Qed.

Lemma window_start_pages pagesize i :
  window_start pagesize i = (Z.of_nat i * N_PAGES_IN_WINDOW) * pagesize.
Proof. unfold window_start, window_capacity. lia. Qed.

Lemma pages_before_start pagesize file_size i :
  0 < pagesize -> window_start pagesize i <= file_size ->
  pages_before pagesize file_size i = Z.of_nat i * N_PAGES_IN_WINDOW.
Proof.
  intros Hp Hi. unfold pages_before.
  rewrite Z.min_l by lia. rewrite window_start_pages. apply cdiv_mul. lia.
Qed.

Lemma pages_before_S pagesize file_size i :
  0 < pagesize -> window_start pagesize i < file_size ->
  pages_before pagesize file_size (S i)
  = pages_before pagesize file_size i
    + cdiv (window_length pagesize file_size i) pagesize.
Proof.
  intros Hp Hi. rewrite (pages_before_start pagesize file_size i) by lia.
  unfold pages_before, window_length. rewrite window_start_S.
  replace (Z.min (window_start pagesize i + window_capacity pagesize) file_size)
    with (window_start pagesize i
          + Z.min (window_capacity pagesize) (file_size - window_start pagesize i))
    by lia.
  rewrite window_start_pages at 1. apply cdiv_add_mul. lia.
Qed.

Lemma cdiv_mono a b c : 0 < c -> a <= b -> cdiv a c <= cdiv b c.
Proof. intros Hc Hab. unfold cdiv. apply Z.div_le_mono; lia. Qed.

Lemma pages_before_mono pagesize file_size i j :
  0 < pagesize -> (i <= j)%nat ->
  pages_before pagesize file_size i <= pages_before pagesize file_size j.
Proof.
  intros Hp Hij. unfold pages_before. apply cdiv_mono; [lia|].
  unfold window_start, window_capacity, N_PAGES_IN_WINDOW. nia.
Qed.

Lemma pages_before_0 pagesize file_size :
  0 < pagesize -> 0 <= file_size -> pages_before pagesize file_size 0 = 0.
Proof.
  intros Hp Hf. unfold pages_before, window_start. simpl.
  rewrite Z.min_l by lia. unfold cdiv. apply Z.div_small. lia.
Qed.

Lemma window_count_covers pagesize file_size :
  0 < pagesize -> 0 <= file_size ->
  file_size <= window_start pagesize (window_count pagesize file_size).
Proof.
  intros Hp Hf. unfold window_start, window_count.
  assert (Hw : 0 < window_capacity pagesize)
    by (unfold window_capacity, N_PAGES_IN_WINDOW; lia).
  pose proof (cdiv_nonneg file_size _ Hw Hf).
  rewrite Z2Nat.id by lia. unfold cdiv in *.
  pose proof (Z.div_mod (file_size + window_capacity pagesize - 1)
                (window_capacity pagesize) ltac:(lia)).
  pose proof (Z.mod_pos_bound (file_size + window_capacity pagesize - 1)
                (window_capacity pagesize) Hw).
  lia.
Qed.

Lemma window_count_last pagesize file_size i :
  0 < pagesize -> 0 <= file_size ->
  (i < window_count pagesize file_size)%nat ->
  window_start pagesize i < file_size.
Proof.
  intros Hp Hf Hi. unfold window_start, window_count in *.
  assert (Hw : 0 < window_capacity pagesize)
    by (unfold window_capacity, N_PAGES_IN_WINDOW; lia).
  assert (Hlt : Z.of_nat i < cdiv file_size (window_capacity pagesize)) by lia.
  unfold cdiv in Hlt.
  pose proof (Z.div_mod (file_size + window_capacity pagesize - 1)
                (window_capacity pagesize) ltac:(lia)).
  pose proof (Z.mod_pos_bound (file_size + window_capacity pagesize - 1)
                (window_capacity pagesize) Hw).
  nia.
Qed.

(** A file of [n] whole windows and [r] more bytes has [n + 1] windows, the
    first [n] of the full capacity and the last of [r] bytes. *)
Lemma window_count_remainder pagesize n r :
  0 < pagesize -> 0 < r < window_capacity pagesize ->
  let file_size := Z.of_nat n * window_capacity pagesize + r in
  window_count pagesize file_size = S n
  /\ (forall i, (i < n)%nat ->
        window_length pagesize file_size i = window_capacity pagesize)
  /\ window_length pagesize file_size n = r.
Proof.
  intros Hp Hr file_size. unfold window_count, window_length, window_start.
  split; [|split].
  - unfold file_size.
    rewrite cdiv_add_mul by lia.
    replace (cdiv r (window_capacity pagesize)) with 1; [lia|].
    unfold cdiv. apply (Z.div_unique _ _ _ (r - 1)); lia.
  - intros i Hi. unfold file_size. nia.
  - unfold file_size. lia.
Qed.

Lemma pages_before_all pagesize file_size :
  0 < pagesize -> 0 <= file_size ->
  pages_before pagesize file_size (window_count pagesize file_size)
  = cdiv file_size pagesize.
Proof.
  intros Hp Hf. unfold pages_before.
  rewrite Z.min_r by (apply window_count_covers; lia). reflexivity.
Qed.

(** ** Successful rounds *)

Section Scan.
Variables (k : kernel) (fd : Z) (name : string) (file_size : Z).
Hypothesis Hcap : capacity_fits (page_size k).
Hypothesis Hoff : offsets_fit (page_size k) file_size.

Local Abbreviation ps := (page_size k).

Lemma capacity_pos : 0 < window_capacity ps.
Proof.
  destruct Hcap. unfold window_capacity, N_PAGES_IN_WINDOW in *. lia.
Qed.

Lemma window_start_nonneg i : 0 <= window_start ps i.
Proof. pose proof capacity_pos. unfold window_start. nia. Qed.

Lemma window_len_exact i :
  window_start ps i < file_size ->
  window_len (window_capacity ps) file_size (window_start ps i)
  = window_length ps file_size i.
Proof.
  intros Hi. destruct Hoff. pose proof capacity_pos.
  pose proof (window_start_nonneg i).
  unfold window_length. apply window_len_min; lia.
Qed.

Lemma next_offset_window i :
  window_start ps i < file_size ->
  next_offset (window_capacity ps) (window_start ps i) = window_start ps (S i).
Proof.
  intros Hi. destruct Hoff. pose proof capacity_pos.
  pose proof (window_start_nonneg i).
  rewrite window_start_S. apply next_offset_exact; lia.
Qed.

Lemma window_length_bounds i :
  window_start ps i < file_size ->
  0 < window_length ps file_size i <= window_capacity ps.
Proof. intros Hi. pose proof capacity_pos. unfold window_length. lia. Qed.

Lemma vec_sized_after_window off len s :
  0 <= len <= window_capacity ps ->
  vec_sized s -> vec_sized (after_window k fd off len s).
Proof.
  intros Hlen Hs. destruct Hcap as [Hp _]. unfold vec_sized, after_window in *.
  simpl. rewrite length_app, length_fmap, length_drop, length_mincore_bytes.
  assert (0 <= cdiv len ps <= N_PAGES_IN_WINDOW).
  { split; [apply cdiv_nonneg; lia|].
    apply cdiv_le_mul; [lia|]. unfold window_capacity in Hlen. lia. }
  lia.
Qed.

(** A round on a window that the kernel maps and queries: the resident
    pages of the window are added and the loop goes on with the next
    window. *)
Lemma loop_window_ok fuel i rc warned count s :
  window_start ps i < file_size ->
  window_ok k fd file_size i ->
  vec_sized s ->
  0 <= count ->
  count + cdiv (window_length ps file_size i) ps <= OFF_MAX ->
  fincore_fd_loop (S fuel) k fd name ps file_size (window_capacity ps)
    (window_start ps i) rc warned count s
  = fincore_fd_loop fuel k fd name ps file_size (window_capacity ps)
      (window_start ps (S i)) 0 warned
      (count + resident_pages k fd (pages_before ps file_size i)
                 (cdiv (window_length ps file_size i) ps))
      (after_window k fd (window_start ps i) (window_length ps file_size i) s).
Proof.
  intros Hi [Hmap Hquery] Hs Hc0 Hc1.
  destruct Hcap as [Hp Hfit]. pose proof (window_length_bounds i Hi) as Hlen.
  simpl. destruct (Z.ltb_spec (window_start ps i) file_size); [|lia].
  rewrite window_len_exact, next_offset_window by exact Hi.
  unfold bind at 1. unfold mmap. rewrite Hmap.
  unfold bind at 1. unfold emit at 1. unfold ret at 1.
  unfold bind at 1.
  rewrite do_mincore_ok;
    [|exact Hquery
     |unfold window_capacity, N_PAGES_IN_WINDOW in Hfit; lia
     |lia|unfold INT_MAX, SIZE_MAX in *; lia
     |exact Hs|unfold OFF_MAX; lia|exact Hc1].
  simpl. unfold bind, munmap, emit. simpl.
  unfold after_window, window_events, resident_pages, mincore_bytes. simpl.
  rewrite (pages_before_start ps file_size i) by lia.
  assert (Hdiv : window_start ps i / ps = Z.of_nat i * N_PAGES_IN_WINDOW)
    by (rewrite window_start_pages; apply Z.div_mul; lia).
  rewrite !Hdiv, <- !app_assoc. reflexivity.
Qed.

Lemma resident_pages_0 lo : resident_pages k fd lo 0 = 0.
Proof. reflexivity. Qed.

(** [j] rounds in a row on windows that the kernel maps and queries. *)
Lemma loop_windows_ok j : forall i fuel count s,
  (forall i', (i <= i' < i + j)%nat ->
     window_start ps i' < file_size /\ window_ok k fd file_size i') ->
  vec_sized s ->
  0 <= count ->
  count + (pages_before ps file_size (i + j) - pages_before ps file_size i)
    <= OFF_MAX ->
  exists s',
    fincore_fd_loop (j + fuel) k fd name ps file_size (window_capacity ps)
      (window_start ps i) 0 false count s
    = fincore_fd_loop fuel k fd name ps file_size (window_capacity ps)
        (window_start ps (i + j)) 0 false
        (count + resident_pages k fd (pages_before ps file_size i)
                   (pages_before ps file_size (i + j)
                    - pages_before ps file_size i)) s'
    /\ vec_sized s'
    /\ errno s' = errno s
    /\ log s' = log s ++ windows_events ps file_size fd i j.
Proof.
  destruct Hcap as [Hp _].
  induction j as [|j IH]; intros i fuel count s Hwin Hs Hc0 Hc1.
  - exists s. rewrite Nat.add_0_r, Z.sub_diag, resident_pages_0, Z.add_0_r.
    unfold windows_events. simpl. rewrite app_nil_r. auto.
  - destruct (Hwin i ltac:(lia)) as [Hi Hok].
    pose proof (pages_before_S ps file_size i Hp Hi) as HS.
    pose proof (pages_before_mono ps file_size (S i) (S i + j) Hp ltac:(lia)) as Hmono.
    pose proof (window_length_bounds i Hi) as Hlen.
    pose proof (cdiv_nonneg (window_length ps file_size i) ps Hp ltac:(lia)) as Hn.
    replace (i + S j)%nat with (S i + j)%nat in * by lia.
    pose proof (resident_pages_bounds k fd (pages_before ps file_size i)
                  (cdiv (window_length ps file_size i) ps) Hn) as Hres.
    change (S j + fuel)%nat with (S (j + fuel)).
    rewrite loop_window_ok by (auto; lia).
    destruct (IH (S i) fuel
                (count + resident_pages k fd (pages_before ps file_size i)
                           (cdiv (window_length ps file_size i) ps))
                (after_window k fd (window_start ps i)
                   (window_length ps file_size i) s))
      as (s' & Heq & Hs' & He' & Hl').
    + intros i' Hi'. apply Hwin. lia.
    + apply vec_sized_after_window; [lia|exact Hs].
    + lia.
    + lia.
    + exists s'. rewrite Heq. split; [|split; [exact Hs'|split]].
      * f_equal.
        replace (pages_before ps file_size (S i + j) - pages_before ps file_size i)
          with (cdiv (window_length ps file_size i) ps
                + (pages_before ps file_size (S i + j)
                   - pages_before ps file_size (S i))) by lia.
        rewrite resident_pages_app by lia.
        rewrite <- HS. lia.
      * rewrite He'. reflexivity.
      * rewrite Hl'. unfold after_window, windows_events. simpl.
        rewrite <- app_assoc. reflexivity.
Qed.

Lemma pages_before_le i : pages_before ps file_size i <= cdiv file_size ps.
Proof.
  destruct Hcap as [Hp _]. unfold pages_before. apply cdiv_mono; lia.
Qed.

Lemma file_pages_le : cdiv file_size ps <= OFF_MAX.
Proof.
  destruct Hcap as [Hp _]. destruct Hoff as [Hf Hw].
  pose proof (cdiv_le_self file_size ps Hp Hf). pose proof capacity_pos. lia.
Qed.

(** The scan up to window [j], when the kernel maps and queries every
    window before it. *)
Lemma fincore_fd_windows_ok j fuel s :
  (forall i, (i < j)%nat ->
     window_start ps i < file_size /\ window_ok k fd file_size i) ->
  vec_sized s ->
  exists s',
    fincore_fd (j + fuel) k fd name ps file_size 0 s
    = fincore_fd_loop fuel k fd name ps file_size (window_capacity ps)
        (window_start ps j) 0 false
        (resident_pages k fd 0 (pages_before ps file_size j)) s'
    /\ vec_sized s'
    /\ errno s' = errno s
    /\ log s' = log s ++ windows_events ps file_size fd 0 j.
Proof.
  intros Hwin Hs. destruct Hcap as [Hp _]. destruct Hoff as [Hf _].
  pose proof (pages_before_0 ps file_size Hp Hf) as H0.
  pose proof (pages_before_le j). pose proof file_pages_le.
  destruct (loop_windows_ok j 0%nat fuel 0 s) as (s' & Heq & Hrest).
  - intros i Hi. apply Hwin. lia.
  - exact Hs.
  - lia.
  - simpl. lia.
  - exists s'. split; [|exact Hrest].
    unfold fincore_fd. rewrite window_size_exact by exact Hcap.
    simpl in Heq. rewrite H0, Z.sub_0_r in Heq. exact Heq.
Qed.

(** Whatever the kernel answers, a loop that ends with status 0 has added
    the resident pages of all the windows left. *)
Lemma loop_success_exact fuel : forall i count s c' s',
  vec_sized s ->
  0 <= count ->
  count + (cdiv file_size ps - pages_before ps file_size i) <= OFF_MAX ->
  fincore_fd_loop fuel k fd name ps file_size (window_capacity ps)
    (window_start ps i) 0 false count s = Ret (0, c') s' ->
  c' = count + resident_pages k fd (pages_before ps file_size i)
                 (cdiv file_size ps - pages_before ps file_size i).
Proof.
  destruct Hcap as [Hp _].
  induction fuel as [|fuel IH]; intros i count s c' s' Hs Hc0 Hc1 Hrun.
  - simpl in Hrun.
    destruct (Z.ltb_spec (window_start ps i) file_size) as [Hi|Hi];
      [discriminate|].
    injection Hrun as <- _. unfold pages_before.
    rewrite Z.min_r, Z.sub_diag, resident_pages_0 by lia. lia.
  - destruct (Z.lt_ge_cases (window_start ps i) file_size) as [Hi|Hi].
    + pose proof (pages_before_S ps file_size i Hp Hi) as HS.
      pose proof (pages_before_le (S i)) as Hle.
      pose proof (window_length_bounds i Hi) as Hlen.
      pose proof (cdiv_nonneg (window_length ps file_size i) ps Hp
                    ltac:(lia)) as Hn.
      pose proof (resident_pages_bounds k fd (pages_before ps file_size i)
                    (cdiv (window_length ps file_size i) ps) Hn) as Hres.
      destruct (k_mmap k fd (window_start ps i)
                  (window_length ps file_size i)) as [e|] eqn:Hmap.
      { rewrite (loop_mmap_fail _ _ _ _ _ _ _ _ _ _ _ e) in Hrun
          by (rewrite ?window_len_exact; assumption).
        injection Hrun as Hrc _ _. unfold EINVAL in Hrc. lia. }
      destruct (k_mincore k fd (window_start ps i)
                  (window_length ps file_size i)) as [e|] eqn:Hquery.
      { rewrite (loop_mincore_fail _ _ _ _ _ _ _ _ _ _ _ _ e) in Hrun
          by (rewrite ?window_len_exact; assumption).
        injection Hrun as Hrc _ _.
        pose proof (warn_errno_pos k "failed to do mincore" name (Z.pos e)
                      ltac:(lia)).
        lia. }
      rewrite loop_window_ok in Hrun by (try split; auto; lia).
      apply IH in Hrun; [| |lia|lia].
      * rewrite Hrun.
        replace (cdiv file_size ps - pages_before ps file_size i)
          with (cdiv (window_length ps file_size i) ps
                + (cdiv file_size ps - pages_before ps file_size (S i)))
          by lia.
        rewrite resident_pages_app by lia. rewrite <- HS. lia.
      * apply vec_sized_after_window; [lia|exact Hs].
    + rewrite loop_done in Hrun by lia.
      injection Hrun as <- _. unfold pages_before.
      rewrite Z.min_r, Z.sub_diag, resident_pages_0 by lia. lia.
Qed.

(** Whatever the kernel answers, the loop stays within [vec]. *)
Lemma loop_in_bounds fuel : forall i count s,
  vec_sized s ->
  0 <= count ->
  count + (cdiv file_size ps - pages_before ps file_size i) <= OFF_MAX ->
  crashed (fincore_fd_loop fuel k fd name ps file_size (window_capacity ps)
             (window_start ps i) 0 false count s) = false.
Proof.
  destruct Hcap as [Hp _].
  induction fuel as [|fuel IH]; intros i count s Hs Hc0 Hc1.
  - simpl. destruct (window_start ps i <? file_size); reflexivity.
  - destruct (Z.lt_ge_cases (window_start ps i) file_size) as [Hi|Hi].
    + pose proof (pages_before_S ps file_size i Hp Hi) as HS.
      pose proof (pages_before_le (S i)) as Hle.
      pose proof (window_length_bounds i Hi) as Hlen.
      pose proof (cdiv_nonneg (window_length ps file_size i) ps Hp
                    ltac:(lia)) as Hn.
      pose proof (resident_pages_bounds k fd (pages_before ps file_size i)
                    (cdiv (window_length ps file_size i) ps) Hn) as Hres.
      destruct (k_mmap k fd (window_start ps i)
                  (window_length ps file_size i)) as [e|] eqn:Hmap.
      { rewrite (loop_mmap_fail _ _ _ _ _ _ _ _ _ _ _ e)
          by (rewrite ?window_len_exact; assumption).
        reflexivity. }
      destruct (k_mincore k fd (window_start ps i)
                  (window_length ps file_size i)) as [e|] eqn:Hquery.
      { rewrite (loop_mincore_fail _ _ _ _ _ _ _ _ _ _ _ _ e)
          by (rewrite ?window_len_exact; assumption).
        reflexivity. }
      rewrite loop_window_ok by (try split; auto; lia).
      apply IH; [|lia|lia].
      apply vec_sized_after_window; [lia|exact Hs].
    + rewrite loop_done by lia. reflexivity.
Qed.
End Scan.

(** ** Whole scans *)

Lemma window_start_mono pagesize i j :
  0 < pagesize -> (i <= j)%nat -> window_start pagesize i <= window_start pagesize j.
Proof.
  intros Hp Hij. unfold window_start, window_capacity, N_PAGES_IN_WINDOW. nia.
Qed.

Lemma count_mmap_windows pagesize file_size fd j : forall i,
  count_events is_mmap (windows_events pagesize file_size fd i j) = j.
Proof.
  unfold windows_events.
  induction j as [|j IH]; intros i; simpl; [reflexivity|].
  change (count_events is_mmap (?a :: ?b :: ?c :: ?l))
    with (S (count_events is_mmap l)).
  f_equal. apply IH.
Qed.

Lemma count_warning_windows pagesize file_size fd j : forall i,
  count_events is_warning (windows_events pagesize file_size fd i j) = 0%nat.
Proof.
  unfold windows_events.
  induction j as [|j IH]; intros i; simpl; [reflexivity|].
  change (count_events is_warning (?a :: ?b :: ?c :: ?l))
    with (count_events is_warning l).
  apply IH.
Qed.

Lemma count_mincore_windows pagesize file_size fd j : forall i,
  count_events is_mincore (windows_events pagesize file_size fd i j) = j.
Proof.
  unfold windows_events.
  induction j as [|j IH]; intros i; simpl; [reflexivity|].
  change (count_events is_mincore (?a :: ?b :: ?c :: ?l))
    with (S (count_events is_mincore l)).
  f_equal. apply IH.
Qed.

(** Every window is mapped and queried: the scan returns the resident pages
    of the file, after the rounds of its windows and nothing else. *)
Lemma scan_success k fd name file_size fuel s :
  capacity_fits (page_size k) ->
  offsets_fit (page_size k) file_size ->
  vec_sized s ->
  (forall i, (i < window_count (page_size k) file_size)%nat ->
     window_ok k fd file_size i) ->
  (window_count (page_size k) file_size <= fuel)%nat ->
  exists s',
    fincore_fd fuel k fd name (page_size k) file_size 0 s
    = Ret (0, resident_pages k fd 0 (cdiv file_size (page_size k))) s'
    /\ vec_sized s'
    /\ errno s' = errno s
    /\ log s' = log s ++ windows_events (page_size k) file_size fd 0
                          (window_count (page_size k) file_size).
Proof.
  intros Hcap Hoff Hs Hwin Hfuel.
  destruct Hcap as [Hp Hfit] eqn:Ecap. destruct Hoff as [Hf Hw] eqn:Eoff.
  clear Ecap Eoff.
  set (m := window_count (page_size k) file_size) in *.
  replace fuel with (m + (fuel - m))%nat by lia.
  destruct (fincore_fd_windows_ok k fd name file_size
              (conj Hp Hfit) (conj Hf Hw) m (fuel - m)%nat s)
    as (s' & Heq & Hs' & He' & Hl').
  - intros i Hi. split; [|apply Hwin; exact Hi].
    apply window_count_last; assumption.
  - exact Hs.
  - exists s'. rewrite Heq. repeat split; try assumption.
    rewrite loop_done by (apply window_count_covers; assumption).
    unfold m. rewrite pages_before_all by assumption. reflexivity.
Qed.

(** The mapping of window [j] fails after every window before it went
    through. *)
Lemma scan_mmap_failure k fd name file_size j fuel s e :
  capacity_fits (page_size k) ->
  offsets_fit (page_size k) file_size ->
  vec_sized s ->
  (forall i, (i < j)%nat -> window_ok k fd file_size i) ->
  window_start (page_size k) j < file_size ->
  k_mmap k fd (window_start (page_size k) j)
    (window_length (page_size k) file_size j) = Some e ->
  (j < fuel)%nat ->
  exists s',
    fincore_fd fuel k fd name (page_size k) file_size 0 s
    = Ret (- EINVAL, resident_pages k fd 0 (Z.of_nat j * N_PAGES_IN_WINDOW)) s'
    /\ vec_sized s'
    /\ errno s' = warn_errno k "failed to do mmap" name (Z.pos e)
    /\ log s' = log s ++ windows_events (page_size k) file_size fd 0 j
                 ++ [EMmap fd (window_start (page_size k) j)
                       (window_length (page_size k) file_size j) false;
                     EWarn "failed to do mmap" name].
Proof.
  intros Hcap Hoff Hs Hwin Hj He Hfuel.
  assert (Hp : 0 < page_size k) by apply Hcap.
  replace fuel with (j + S (fuel - j - 1))%nat by lia.
  destruct (fincore_fd_windows_ok k fd name file_size Hcap Hoff j
              (S (fuel - j - 1)) s) as (s' & Heq & Hs' & He' & Hl').
  - intros i Hi. split; [|apply Hwin; exact Hi].
    pose proof (window_start_mono (page_size k) (S i) j Hp ltac:(lia)).
    rewrite window_start_S in *.
    pose proof (capacity_pos k Hcap). lia.
  - exact Hs.
  - rewrite Heq.
    rewrite (loop_mmap_fail _ _ _ _ _ _ _ _ _ _ _ e)
      by (rewrite ?window_len_exact; assumption).
    rewrite window_len_exact by assumption.
    rewrite pages_before_start by lia.
    eexists. split; [reflexivity|]. simpl.
    rewrite Hl', <- app_assoc. auto.
Qed.

(** The query on window [j] fails after every window before it went
    through. *)
Lemma scan_mincore_failure k fd name file_size j fuel s e :
  capacity_fits (page_size k) ->
  offsets_fit (page_size k) file_size ->
  vec_sized s ->
  (forall i, (i < j)%nat -> window_ok k fd file_size i) ->
  window_start (page_size k) j < file_size ->
  k_mmap k fd (window_start (page_size k) j)
    (window_length (page_size k) file_size j) = None ->
  k_mincore k fd (window_start (page_size k) j)
    (window_length (page_size k) file_size j) = Some e ->
  (j < fuel)%nat ->
  exists s',
    fincore_fd fuel k fd name (page_size k) file_size 0 s
    = Ret (- warn_errno k "failed to do mincore" name (Z.pos e),
           resident_pages k fd 0 (Z.of_nat j * N_PAGES_IN_WINDOW)) s'
    /\ vec_sized s'
    /\ errno s' = warn_errno k "failed to do mincore" name (Z.pos e)
    /\ log s' = log s ++ windows_events (page_size k) file_size fd 0 j
                 ++ [EMmap fd (window_start (page_size k) j)
                       (window_length (page_size k) file_size j) true;
                     EMincore fd (window_start (page_size k) j)
                       (window_length (page_size k) file_size j) false;
                     EWarn "failed to do mincore" name].
Proof.
  intros Hcap Hoff Hs Hwin Hj Hm He Hfuel.
  assert (Hp : 0 < page_size k) by apply Hcap.
  replace fuel with (j + S (fuel - j - 1))%nat by lia.
  destruct (fincore_fd_windows_ok k fd name file_size Hcap Hoff j
              (S (fuel - j - 1)) s) as (s' & Heq & Hs' & He' & Hl').
  - intros i Hi. split; [|apply Hwin; exact Hi].
    pose proof (window_start_mono (page_size k) (S i) j Hp ltac:(lia)).
    rewrite window_start_S in *.
    pose proof (capacity_pos k Hcap). lia.
  - exact Hs.
  - rewrite Heq.
    rewrite (loop_mincore_fail _ _ _ _ _ _ _ _ _ _ _ _ e)
      by (rewrite ?window_len_exact; assumption).
    rewrite window_len_exact by assumption.
    rewrite pages_before_start by lia.
    eexists. split; [reflexivity|]. simpl.
    rewrite Hl', <- app_assoc. auto.
Qed.

(** ** [fincore_name] and [main] *)

Lemma fincore_name_open_fail fuel k name pagesize sb count s e :
  k_open k name = inl e ->
  fincore_name fuel k name pagesize sb count s
  = Ret (0, sb, count)
      (State (vec s) (warn_errno k "failed to open" name (Z.pos e))
         (log s ++ [EOpen name false; EWarn "failed to open" name])).
Proof.
  intros He. unfold fincore_name, bind, open. rewrite He.
  unfold warn, bind, emit, set_errno, ret, get_errno. simpl.
  rewrite <- app_assoc. reflexivity.
Qed.

Lemma fincore_name_fstat_fail fuel k name pagesize sb count s fd e :
  k_open k name = inr fd -> 0 <= fd ->
  k_fstat k fd = inl e ->
  fincore_name fuel k name pagesize sb count s
  = Ret (- warn_errno k "failed to do fstat" name (Z.pos e), sb, count)
      (State (vec s) (warn_errno k "failed to do fstat" name (Z.pos e))
         (log s ++ [EOpen name true; EFstat fd false;
                    EWarn "failed to do fstat" name])).
Proof.
  intros Hfd Hpos He. unfold fincore_name, bind, open. rewrite Hfd.
  unfold bind, emit, ret. simpl.
  destruct (Z.ltb_spec fd 0); [lia|].
  unfold fstat. rewrite He.
  unfold warn, bind, emit, set_errno, ret, get_errno. simpl.
  rewrite <- !app_assoc. reflexivity.
Qed.

Lemma fincore_name_empty fuel k name pagesize sb count s fd :
  k_open k name = inr fd -> 0 <= fd ->
  k_fstat k fd = inr 0 ->
  fincore_name fuel k name pagesize sb count s
  = Ret (0, Some 0, count)
      (State (vec s) (errno s)
         (log s ++ [EOpen name true; EFstat fd true; EClose fd])).
Proof.
  intros Hfd Hpos He. unfold fincore_name, bind, open. rewrite Hfd.
  unfold bind, emit, ret. simpl.
  destruct (Z.ltb_spec fd 0); [lia|].
  unfold fstat. rewrite He.
  unfold bind, emit, ret, close, emit. simpl.
  rewrite <- !app_assoc. reflexivity.
Qed.

Lemma fincore_name_scan fuel k name pagesize sb count s fd size rc c s1 :
  k_open k name = inr fd -> 0 <= fd ->
  k_fstat k fd = inr size -> size <> 0 ->
  fincore_fd fuel k fd name pagesize size count
    (State (vec s) (errno s) (log s ++ [EOpen name true; EFstat fd true]))
  = Ret (rc, c) s1 ->
  fincore_name fuel k name pagesize sb count s
  = Ret (rc, Some size, c)
      (State (vec s1) (errno s1) (log s1 ++ [EClose fd])).
Proof.
  intros Hfd Hpos He Hsize Hscan. unfold fincore_name, bind, open. rewrite Hfd.
  unfold bind, emit, ret. simpl.
  destruct (Z.ltb_spec fd 0); [lia|].
  unfold fstat. rewrite He.
  unfold bind, emit, ret. simpl.
  destruct (Z.eqb_spec size 0); [contradiction|]. simpl.
  rewrite <- app_assoc. simpl. rewrite Hscan. reflexivity.
Qed.

Lemma stdout_windows pagesize file_size fd j : forall i,
  stdout (windows_events pagesize file_size fd i j) = [].
Proof.
  unfold windows_events.
  induction j as [|j IH]; intros i; simpl; [reflexivity|]. apply IH.
Qed.

(** A file whose [fincore_name] fails gets the failure line and turns the
    exit status into failure; the loop goes on with the files left. *)
Lemma main_loop_failure fuel k pagesize name rest rc0 s rc sb c s1 :
  fincore_name fuel k name pagesize None 0 s = Ret (rc, sb, c) s1 ->
  rc <> 0 ->
  main_loop fuel k pagesize (name :: rest) rc0 s
  = main_loop fuel k pagesize rest EXIT_FAILURE
      (State (vec s1) (errno s1) (log s1 ++ [EPrint (ReportFailure name)])).
Proof.
  intros Hname Hrc. simpl. unfold bind at 1. rewrite Hname.
  destruct (Z.eqb_spec rc 0); [contradiction|].
  reflexivity.
Qed.

Lemma main_loop_success fuel k pagesize name rest rc0 s sb c s1 :
  fincore_name fuel k name pagesize None 0 s = Ret (0, sb, c) s1 ->
  main_loop fuel k pagesize (name :: rest) rc0 s
  = main_loop fuel k pagesize rest rc0
      (State (vec s1) (errno s1) (log s1 ++ [EPrint (ReportCount name sb c)])).
Proof.
  intros Hname. simpl. unfold bind at 1. rewrite Hname. reflexivity.
Qed.

(** When the capacity of a window fits an [int], every window has at most
    [N_PAGES_IN_WINDOW] pages and the scan stays within [vec], whatever the
    kernel answers. *)
Lemma window_page_count_bounded pagesize file_size i :
  capacity_fits pagesize ->
  window_start pagesize i < file_size ->
  0 <= page_count (window_length pagesize file_size i) pagesize
    <= N_PAGES_IN_WINDOW.
Proof.
  intros [Hp Hfit] Hi.
  assert (Hlen : 0 < window_length pagesize file_size i
                 <= window_capacity pagesize).
  { unfold window_length.
    assert (0 < window_capacity pagesize)
      by (unfold window_capacity, N_PAGES_IN_WINDOW; lia).
    lia. }
  assert (Hn : 0 <= cdiv (window_length pagesize file_size i) pagesize
               <= N_PAGES_IN_WINDOW).
  { split; [apply cdiv_nonneg; lia|].
    apply cdiv_le_mul; [lia|]. unfold window_capacity in Hlen. lia. }
  rewrite page_count_cdiv; [exact Hn| | |]; limits.
Qed.

Lemma fincore_fd_in_bounds k fd name file_size fuel s :
  capacity_fits (page_size k) ->
  offsets_fit (page_size k) file_size ->
  vec_sized s ->
  crashed (fincore_fd fuel k fd name (page_size k) file_size 0 s) = false.
Proof.
  intros Hcap Hoff Hs.
  assert (Hp : 0 < page_size k) by apply Hcap.
  assert (Hf : 0 <= file_size) by apply Hoff.
  pose proof (file_pages_le k file_size Hcap Hoff) as Hle.
  pose proof (pages_before_0 (page_size k) file_size Hp Hf) as H0.
  unfold fincore_fd. rewrite window_size_exact by exact Hcap.
  apply (loop_in_bounds k fd name file_size Hcap Hoff fuel 0%nat);
    [exact Hs|lia|lia].
Qed.

(** ** Page sizes whose window capacity does not fit an [int] *)

(** From 128 KiB on, a page size that is a power of two makes the product
    [N_PAGES_IN_WINDOW * pagesize] wrap to 0. *)
Lemma window_size_zero a : 17 <= a <= 30 -> window_size (2 ^ a) = 0.
Proof.
  intros Ha. unfold window_size, to_int.
  replace (N_PAGES_IN_WINDOW * 2 ^ a) with (2 ^ (a - 17) * 2 ^ 32).
  - rewrite Z.add_comm, Z_mod_plus_full. reflexivity.
  - change N_PAGES_IN_WINDOW with (2 ^ 15).
    rewrite <- !Z.pow_add_r by lia. f_equal. lia.
Qed.

(** At 64 KiB it wraps to [- 2^31], which as a [size_t] is [2^64 - 2^31]. *)
Lemma window_size_64k : window_size 65536 = 2 ^ 64 - 2 ^ 31.
Proof. reflexivity. Qed.

(** With a window of 0 bytes the loop never leaves offset 0: a run on a file
    that is not empty cannot end with status 0. *)
Lemma loop_zero_window fuel k fd name pagesize file_size :
  0 < file_size ->
  forall rc count s rc' c' s',
  fincore_fd_loop fuel k fd name pagesize file_size 0 0 rc false count s
  = Ret (rc', c') s' ->
  rc' <> 0.
Proof.
  intros Hf. induction fuel as [|fuel IH]; intros rc count s rc' c' s' Hrun.
  - simpl in Hrun. destruct (Z.ltb_spec 0 file_size); [discriminate|lia].
  - destruct (k_mmap k fd 0 (window_len 0 file_size 0)) as [e|] eqn:Hm.
    + rewrite (loop_mmap_fail _ _ _ _ _ _ _ _ _ _ _ e Hf Hm) in Hrun.
      injection Hrun as <- _ _. discriminate.
    + rewrite loop_round in Hrun by assumption.
      destruct (do_mincore _ _ _ _ _ _ _) as [[rc1 c1] s1|s1|] eqn:Hdm;
        try discriminate.
      apply do_mincore_returns in Hdm.
      destruct Hdm as [(e & _ & -> & _)|(_ & -> & _)];
        [rewrite warn_errno_status in Hrun|]; simpl in Hrun.
      * injection Hrun as <- _ _. apply warn_errno_nonzero.
      * change (next_offset 0 0) with 0 in Hrun. eapply IH. exact Hrun.
Qed.

(** At 64 KiB the first window is the whole file and the second starts at
    [- 2^31]: when the kernel maps it the query is on more than 32768 pages,
    past the end of [vec].  A run on a file that is not empty cannot end
    with status 0. *)
Lemma loop_64k_window fuel k fd name file_size count s rc' c' s' :
  page_size k = 65536 ->
  0 < file_size <= OFF_MAX - 2 ^ 31 ->
  vec_sized s ->
  fincore_fd fuel k fd name 65536 file_size count s = Ret (rc', c') s' ->
  rc' <> 0.
Proof.
  intros Hps Hf Hs Hrun. unfold fincore_fd in Hrun.
  rewrite window_size_64k in Hrun.
  destruct fuel as [|fuel].
  { simpl in Hrun. destruct (Z.ltb_spec 0 file_size); [discriminate|lia]. }
  destruct (k_mmap k fd 0 (window_len (2 ^ 64 - 2 ^ 31) file_size 0))
    as [e|] eqn:Hm.
  { rewrite (loop_mmap_fail _ _ _ _ _ _ _ _ _ _ _ e) in Hrun by (auto; lia).
    injection Hrun as <- _ _. discriminate. }
  rewrite loop_round in Hrun by (auto; lia).
  destruct (do_mincore _ _ _ _ _ _ _) as [[rc1 c1] s1|s1|] eqn:Hdm;
    try discriminate.
  apply do_mincore_returns in Hdm.
  destruct Hdm as [(e & _ & -> & _)|(_ & -> & _ & _ & _ & Hlen1)];
    [rewrite warn_errno_status in Hrun|]; simpl in *.
  { injection Hrun as <- _ _. apply warn_errno_nonzero. }
  change (next_offset (2 ^ 64 - 2 ^ 31) 0) with (- 2 ^ 31) in Hrun.
  assert (Hoff : - 2 ^ 31 < file_size) by lia.
  destruct fuel as [|fuel].
  { simpl in Hrun. destruct (Z.ltb_spec (- 2 ^ 31) file_size); [discriminate|lia]. }
  destruct (k_mmap k fd (- 2 ^ 31)
              (window_len (2 ^ 64 - 2 ^ 31) file_size (- 2 ^ 31)))
    as [e|] eqn:Hm2.
  { rewrite (loop_mmap_fail _ _ _ _ _ _ _ _ _ _ _ e Hoff Hm2) in Hrun.
    injection Hrun as <- _ _. discriminate. }
  rewrite loop_round in Hrun by assumption.
  destruct (do_mincore _ _ _ _ _ _ _) as [[rc2 c2] s2|s2|] eqn:Hdm2;
    try discriminate.
  apply do_mincore_returns in Hdm2.
  destruct Hdm2 as [(e & _ & -> & _)|(_ & _ & _ & _ & Hbytes & _)];
    [rewrite warn_errno_status in Hrun|]; simpl in *.
  { injection Hrun as <- _ _. apply warn_errno_nonzero. }
  exfalso.
  assert (Hlen : window_len (2 ^ 64 - 2 ^ 31) file_size (- 2 ^ 31)
                 = 32768 * 65536 + file_size).
  { unfold window_len.
    rewrite to_off_small by (unfold OFF_MAX in *; lia).
    rewrite to_size_small by (unfold OFF_MAX, SIZE_MAX in *; lia).
    destruct (Z.geb_spec (file_size - - 2 ^ 31) (2 ^ 64 - 2 ^ 31));
      [unfold OFF_MAX in *; lia|lia]. }
  rewrite length_mincore_bytes, Hlen, Hps, cdiv_add_mul in Hbytes by lia.
  red in Hs. rewrite Hlen1, Hs in Hbytes.
  assert (1 <= cdiv file_size 65536).
  { unfold cdiv. apply Z.div_le_lower_bound; lia. }
  unfold N_PAGES_IN_WINDOW in Hbytes. lia.
Qed.

(** For a page size that is a power of two, whatever the kernel answers: a
    scan that ends with status 0 has counted the resident pages of the whole
    file. *)
Lemma scan_success_exact k fd name file_size fuel s count s' a :
  0 <= a <= 30 -> page_size k = 2 ^ a ->
  offsets_fit (page_size k) file_size ->
  vec_sized s ->
  fincore_fd fuel k fd name (page_size k) file_size 0 s = Ret (0, count) s' ->
  count = resident_pages k fd 0 (cdiv file_size (page_size k)).
Proof.
  intros Ha Hps Hoff Hs Hrun.
  assert (Hp : 0 < page_size k) by (rewrite Hps; apply Z.pow_pos_nonneg; lia).
  assert (Hf : 0 <= file_size) by apply Hoff.
  destruct (Z.le_gt_cases a 15) as [Hsmall|Hbig].
  - assert (Hcap : capacity_fits (page_size k)).
    { split; [exact Hp|]. rewrite Hps. unfold window_capacity.
      pose proof (Z.pow_le_mono_r 2 a 15 ltac:(lia) Hsmall).
      unfold N_PAGES_IN_WINDOW, INT_MAX. lia. }
    pose proof (file_pages_le k file_size Hcap Hoff) as Hle.
    pose proof (pages_before_0 (page_size k) file_size Hp Hf) as H0.
    pose proof (cdiv_nonneg file_size (page_size k) Hp Hf) as Hn.
    unfold fincore_fd in Hrun. rewrite window_size_exact in Hrun by exact Hcap.
    apply (loop_success_exact k fd name file_size Hcap Hoff fuel 0%nat) in Hrun;
      [|exact Hs|lia|lia].
    rewrite H0, Z.sub_0_r in Hrun. exact Hrun.
  - destruct (Z.eq_dec file_size 0) as [->|Hne].
    + unfold fincore_fd in Hrun. rewrite loop_done in Hrun by lia.
      injection Hrun as <-. unfold cdiv.
      rewrite Z.div_small by lia. reflexivity.
    + exfalso. destruct (Z.eq_dec a 16) as [->|Hne16].
      * change (2 ^ 16) with 65536 in Hps. rewrite Hps in Hrun.
        apply loop_64k_window in Hrun; [lia|exact Hps| |exact Hs].
        destruct Hoff as [_ Hoff]. rewrite Hps in Hoff.
        unfold window_capacity, N_PAGES_IN_WINDOW in Hoff. lia.
      * unfold fincore_fd in Hrun. rewrite Hps, window_size_zero in Hrun by lia.
        apply loop_zero_window in Hrun; lia.
Qed.

(** * The specification, statement by statement *)

(** ** C1: the count of a scan *)

(** C1, at a page size of 64 KiB and a file of 1 MiB whose 16 pages are all
    resident.  The file has one window; the kernel maps it and answers the
    query, and the residency flags of the pages of the file add up to 16.
    With [window_size = 2^64 - 2^31] the loop does not end after that window:
    it finds [file_offset = - 2^31] below the size of the file and tries a
    second window there, which the kernel refuses.  The scan returns
    [-EINVAL] with the count, not status 0. *)
Theorem resident_file_fails_at_64k_pages :
  window_count 65536 1048576 = 1%nat
  /\ window_ok (linux_kernel 65536 1048576) 3 1048576 0
  /\ resident_pages (linux_kernel 65536 1048576) 3 0 (cdiv 1048576 65536) = 16
  /\ returned (fincore_fd 2 (linux_kernel 65536 1048576) 3 "m" 65536 1048576 0
                 initial_state)
     = Some (-22, 16)
  /\ final_log (fincore_fd 2 (linux_kernel 65536 1048576) 3 "m" 65536 1048576 0
                  initial_state)
     = [EMmap 3 0 1048576 true; EMincore 3 0 1048576 true; EMunmap 3 0 1048576;
        EMmap 3 (-2147483648) 2148532224 false;
        EWarn "failed to do mmap" "m"].
Proof.
  split; [reflexivity|]. split; [split; reflexivity|].
  split; [reflexivity|]. split; vm_compute; reflexivity.
Qed.

(** ** C2: empty files *)

(** C2.  For a file of size 0 the scan returns count 0 and status 0, with no
    window mapped and no warning: [fincore_fd] returns at once, leaving the
    state as it was, [fincore_name] does not even call it, and [main] prints
    the count 0 and exits with success. *)
Theorem empty_file_counts_zero fuel k name fd s :
  k_open k name = inr fd -> 0 <= fd ->
  k_fstat k fd = inr 0 ->
  fincore_fd fuel k fd name (page_size k) 0 0 s = Ret (0, 0) s
  /\ fincore_name fuel k name (page_size k) None 0 s
     = Ret (0, Some 0, 0)
         (State (vec s) (errno s)
            (log s ++ [EOpen name true; EFstat fd true; EClose fd]))
  /\ main fuel k [name] s
     = Ret EXIT_SUCCESS
         (State (vec s) (errno s)
            (log s ++ [EOpen name true; EFstat fd true; EClose fd;
                       EPrint (ReportCount name (Some 0) 0)])).
Proof.
  intros Hfd Hpos Hstat.
  pose proof (fincore_name_empty fuel k name (page_size k) None 0 s fd
                Hfd Hpos Hstat) as Hname.
  split; [|split].
  - apply loop_done. lia.
  - exact Hname.
  - unfold main. rewrite (main_loop_success _ _ _ _ _ _ _ _ _ _ Hname).
    simpl. unfold ret. rewrite <- app_assoc. reflexivity.
Qed.

Lemma empty_file_counts_zero_witness :
  k_open (resident_kernel 4096 0) "empty" = inr 3 /\
  k_fstat (resident_kernel 4096 0) 3 = inr 0 /\
  returned (main 0 (resident_kernel 4096 0) ["empty"] initial_state)
  = Some EXIT_SUCCESS /\
  stdout (final_log (main 0 (resident_kernel 4096 0) ["empty"] initial_state))
  = [ReportCount "empty" (Some 0) 0].
Proof.
  destruct (empty_file_counts_zero 0 (resident_kernel 4096 0) "empty" 3
              initial_state eq_refl ltac:(lia) eq_refl) as (_ & _ & Hmain).
  rewrite Hmain. repeat split.
Defined.

(** ** C3: the windows of a file *)

(** C3, at a page size of 64 KiB and a file of one byte.  The capacity of a
    window, 32768 pages of 65536 bytes, is [2^31] and does not fit an [int]:
    [window_size] is [2^64 - 2^31].  The file has one window, bytes 0 to 1;
    the scan maps and queries it, then finds [file_offset = - 2^31] below the
    size of the file and tries a second window there, of [2^31 + 1] bytes;
    the kernel refuses it and the scan fails with [-EINVAL]. *)
Theorem second_window_at_64k_pages :
  window_capacity 65536 = 2147483648
  /\ window_size 65536 = 18446744071562067968
  /\ window_count 65536 1 = 1%nat
  /\ next_offset (window_size 65536) 0 = -2147483648
  /\ returned (fincore_fd 2 (linux_kernel 65536 1) 3 "f" 65536 1 0 initial_state)
     = Some (-22, 1)
  /\ final_log (fincore_fd 2 (linux_kernel 65536 1) 3 "f" 65536 1 0 initial_state)
     = [EMmap 3 0 1 true; EMincore 3 0 1 true; EMunmap 3 0 1;
        EMmap 3 (-2147483648) 2147483649 false;
        EWarn "failed to do mmap" "f"]
  /\ count_events is_mmap
       (final_log (fincore_fd 2 (linux_kernel 65536 1) 3 "f" 65536 1 0
                     initial_state)) = 2%nat.
Proof. repeat split; vm_compute; reflexivity. Qed.

(** ** C4: the pages of a window *)

(** C4.  For a window of [len] bytes, a last and shorter one included, the
    number of entries that [do_mincore] examines is [len / pagesize] rounded
    up; it adds the resident pages among exactly that many pages, from the
    first page of the window on, and for a window shorter than the capacity
    by a page or more that number is below [N_PAGES_IN_WINDOW]. *)
Theorem do_mincore_examines_ceiling k fd off len name count s :
  0 < page_size k <= INT_MAX ->
  0 <= len <= window_capacity (page_size k) ->
  k_mincore k fd off len = None ->
  vec_sized s ->
  0 <= count <= OFF_MAX - N_PAGES_IN_WINDOW ->
  page_count len (page_size k) = cdiv len (page_size k)
  /\ (exists s',
        do_mincore k (Mapping fd off len) len name (page_size k) count s
        = Ret (0, count + resident_pages k fd (off / page_size k)
                            (cdiv len (page_size k))) s')
  /\ (len <= window_capacity (page_size k) - page_size k ->
      page_count len (page_size k) < N_PAGES_IN_WINDOW).
Proof.
  intros Hp Hlen Hquery Hs Hcount.
  assert (Hn : 0 <= cdiv len (page_size k) <= N_PAGES_IN_WINDOW).
  { split; [apply cdiv_nonneg; lia|].
    apply cdiv_le_mul; [lia|]. unfold window_capacity in Hlen. lia. }
  assert (Hcap : window_capacity (page_size k) <= SIZE_MAX)
    by (unfold window_capacity, N_PAGES_IN_WINDOW, INT_MAX, SIZE_MAX in *; lia).
  assert (Hpc : page_count len (page_size k) = cdiv len (page_size k)).
  { apply page_count_cdiv; [lia|lia|].
    unfold N_PAGES_IN_WINDOW, INT_MAX in *. lia. }
  split; [exact Hpc|split].
  - eexists. rewrite do_mincore_ok;
      [reflexivity|exact Hquery|lia|lia|exact Hcap|exact Hs
      |unfold OFF_MAX in *; lia|lia].
  - intros Hshort. rewrite Hpc.
    assert (cdiv len (page_size k) <= N_PAGES_IN_WINDOW - 1); [|lia].
    apply cdiv_le_mul; [lia|]. unfold window_capacity in Hshort. lia.
Qed.

Lemma do_mincore_examines_ceiling_witness :
  page_count 4194 4096 = 2 /\
  exists s',
    do_mincore (resident_kernel 4096 4194) (Mapping 3 0 4194) 4194 "a" 4096 0
      initial_state = Ret (0, 2) s'.
Proof.
  destruct (do_mincore_examines_ceiling (resident_kernel 4096 4194) 3 0 4194
              "a" 0 initial_state) as (Hpc & (s' & Hrun) & _).
  - unfold INT_MAX. simpl. lia.
  - unfold window_capacity, N_PAGES_IN_WINDOW. simpl. lia.
  - reflexivity.
  - reflexivity.
  - unfold OFF_MAX, N_PAGES_IN_WINDOW. lia.
  - split; [exact Hpc|]. exists s'. exact Hrun.
Defined.

(** ** C5: bounds of the count *)

(** C5.  A scan that ends with status 0 returns a count between 0 and the
    number of pages of the file, [ceil(file_size / page_size)], whatever the
    kernel answered, at every page size that is a power of two. *)
Theorem fincore_fd_count_bounded k fd name file_size fuel s count s' a :
  0 <= a <= 30 -> page_size k = 2 ^ a ->
  offsets_fit (page_size k) file_size ->
  vec_sized s ->
  fincore_fd fuel k fd name (page_size k) file_size 0 s = Ret (0, count) s' ->
  0 <= count <= cdiv file_size (page_size k).
Proof.
  intros Ha Hps Hoff Hs Hrun.
  rewrite (scan_success_exact k fd name file_size fuel s count s' a
             Ha Hps Hoff Hs Hrun).
  apply resident_pages_bounds. apply cdiv_nonneg; [|apply Hoff].
  rewrite Hps. apply Z.pow_pos_nonneg; lia.
Qed.

Lemma fincore_fd_count_bounded_witness :
  exists s',
    fincore_fd 1 (resident_kernel 4096 4194) 3 "a" 4096 4194 0 initial_state
    = Ret (0, 2) s'
    /\ 0 <= 2 <= cdiv 4194 4096.
Proof.
  assert (Hcap : capacity_fits 4096) by limits.
  assert (Hoff : offsets_fit 4096 4194) by limits.
  assert (Hvec : vec_sized initial_state) by reflexivity.
  destruct (scan_success (resident_kernel 4096 4194) 3 "a" 4194 1
              initial_state Hcap Hoff Hvec) as (s' & Hrun & _).
  - intros i _. split; reflexivity.
  - vm_compute. lia.
  - exists s'. split; [exact Hrun|].
    exact (fincore_fd_count_bounded (resident_kernel 4096 4194) 3 "a" 4194 1
             initial_state 2 s' 12 ltac:(lia) eq_refl Hoff Hvec Hrun).
Defined.

(** ** C6: a window that cannot be mapped *)

(** C6.  A failed [mmap] ends the scan of the file.  First, for every run of
    [fincore_fd] that returns, at any page size: the log of the run has at
    most one failed [mmap]; if it has one the log ends with it and its
    warning, the rounds before hold no failed [mmap] and no warning, and the
    status is [-EINVAL], not the 0 of success.  Second, when the mapping of
    window [j] fails, the windows before it having gone through, the run does
    return: the log is the rounds of windows [0] to [j - 1], the failed
    [mmap] and one warning, so that [j + 1] windows were attempted in all and
    the failure was reported once. *)
Theorem mmap_failure_aborts_scan k fd name file_size :
  (forall fuel pagesize count s rc c s',
     fincore_fd fuel k fd name pagesize file_size count s = Ret (rc, c) s' ->
     exists t,
       log s' = log s ++ t
       /\ (count_events is_failed_mmap t = 0%nat
           \/ exists rounds off len,
                t = rounds ++ [EMmap fd off len false;
                               EWarn "failed to do mmap" name]
                /\ count_events is_failed_mmap rounds = 0%nat
                /\ count_events is_warning rounds = 0%nat
                /\ k_mmap k fd off len <> None
                /\ rc = - EINVAL /\ rc <> 0))
  /\ (forall j fuel s e,
        capacity_fits (page_size k) ->
        offsets_fit (page_size k) file_size ->
        vec_sized s ->
        (forall i, (i < j)%nat -> window_ok k fd file_size i) ->
        window_start (page_size k) j < file_size ->
        k_mmap k fd (window_start (page_size k) j)
          (window_length (page_size k) file_size j) = Some e ->
        (j < fuel)%nat ->
        exists count s' new,
          fincore_fd fuel k fd name (page_size k) file_size 0 s
          = Ret (- EINVAL, count) s'
          /\ log s' = log s ++ new
          /\ new = windows_events (page_size k) file_size fd 0 j
                   ++ [EMmap fd (window_start (page_size k) j)
                         (window_length (page_size k) file_size j) false;
                       EWarn "failed to do mmap" name]
          /\ count_events is_mmap new = S j
          /\ count_events is_warning new = 1%nat).
Proof.
  split.
  - intros fuel pagesize count s rc c s' Hrun.
    apply fincore_fd_trace in Hrun. destruct Hrun as (t & Hlog & Htrace).
    exists t. split; [exact Hlog|].
    destruct (scan_trace_mmap _ _ _ _ _ _ Htrace)
      as [Hnone|(rounds & off & len & Ht & Hf & Hw & Hk & Hrc)].
    + left. exact Hnone.
    + right. exists rounds, off, len. subst rc. repeat split; auto.
  - intros j fuel s e Hcap Hoff Hs Hwin Hj He Hfuel.
    destruct (scan_mmap_failure k fd name file_size j fuel s e
                Hcap Hoff Hs Hwin Hj He Hfuel) as (s' & Hrun & _ & _ & Hlog).
    eexists _, s', _. split; [exact Hrun|].
    split; [exact Hlog|]. split; [reflexivity|].
    rewrite !count_events_app, count_mmap_windows, count_warning_windows.
    unfold count_events. simpl. split; [lia|reflexivity].
Qed.

Lemma mmap_failure_aborts_scan_witness :
  window_ok (second_window_unmapped 4096 134217729) 3 134217729 0 /\
  window_start 4096 1 < 134217729 /\
  k_mmap (second_window_unmapped 4096 134217729) 3 (window_start 4096 1)
    (window_length 4096 134217729 1) = Some ENOMEM_pos /\
  exists count s',
    fincore_fd 2 (second_window_unmapped 4096 134217729) 3 "a" 4096 134217729
      0 initial_state = Ret (-22, count) s'
    /\ count_events is_mmap (log s') = 2%nat
    /\ count_events is_failed_mmap (log s') = 1%nat
    /\ count_events is_warning (log s') = 1%nat
    /\ exists t, log s' = log initial_state ++ t.
Proof.
  assert (Hcap : capacity_fits 4096) by limits.
  assert (Hoff : offsets_fit 4096 134217729) by limits.
  assert (Hvec : vec_sized initial_state) by reflexivity.
  assert (Hok : window_ok (second_window_unmapped 4096 134217729) 3 134217729 0)
    by (split; reflexivity).
  assert (Hlt : window_start 4096 1 < 134217729) by reflexivity.
  destruct (mmap_failure_aborts_scan (second_window_unmapped 4096 134217729)
              3 "a" 134217729) as [Hany Hfail].
  destruct (Hfail 1%nat 2%nat initial_state ENOMEM_pos Hcap Hoff Hvec)
    as (count & s' & new & Hrun & Hlog & Hnew & Hmaps & Hwarns).
  - intros i Hi. destruct i as [|i]; [exact Hok|lia].
  - exact Hlt.
  - reflexivity.
  - lia.
  - split; [exact Hok|split; [exact Hlt|split; [reflexivity|]]].
    exists count, s'. split; [exact Hrun|].
    destruct (Hany 2%nat 4096 0 initial_state (-22) count s' Hrun)
      as (t & Ht & _).
    split; [rewrite Hlog; exact Hmaps|].
    split; [rewrite Hlog, Hnew; reflexivity|].
    split; [rewrite Hlog; exact Hwarns|].
    exists t. exact Ht.
Defined.

(** ** C7: a query that fails *)

(** C7, for a query that fails while standard error cannot be written.
    [mincore] fails with [EAGAIN] on the window of the file.  [do_mincore]
    then calls [warn], whose write fails and leaves [EBADF] in [errno], and
    returns [-errno] after it: the scan ends at once, with [-EBADF], which is
    not the error number of the query.  When the warning can be written the
    same scan returns [-EAGAIN]. *)
Theorem query_error_lost_after_warn :
  k_mincore (unqueried 4096 4194 (Some EBADF_pos)) 3 0 4194 = Some EAGAIN_pos
  /\ returned (fincore_fd 1 (unqueried 4096 4194 (Some EBADF_pos)) 3 "a" 4096
                 4194 0 initial_state)
     = Some (-9, 0)
  /\ final_log (fincore_fd 1 (unqueried 4096 4194 (Some EBADF_pos)) 3 "a" 4096
                  4194 0 initial_state)
     = [EMmap 3 0 4194 true; EMincore 3 0 4194 false;
        EWarn "failed to do mincore" "a"]
  /\ returned (fincore_fd 1 (unqueried 4096 4194 None) 3 "a" 4096 4194 0
                 initial_state)
     = Some (-11, 0).
Proof. split; [reflexivity|]. repeat split; vm_compute; reflexivity. Qed.

(** ** C8: files that fail *)

(** C8, for a file that cannot be opened.  [fincore_name] warns and returns
    0, so that [main] prints a count line for the file, with the count 0 and
    the size of a [struct stat] that was never filled in, and exits with
    success. *)
Theorem unopened_file_reported_as_success :
  returned (main 1 (no_such_file 4096) ["missing"] initial_state)
  = Some EXIT_SUCCESS
  /\ final_log (main 1 (no_such_file 4096) ["missing"] initial_state)
     = [EOpen "missing" false; EWarn "failed to open" "missing";
        EPrint (ReportCount "missing" None 0)].
Proof. split; vm_compute; reflexivity. Qed.

(** The sibling path: a file on which [fstat] fails gets the failure line and
    the exit status of failure. *)
Lemma unstatable_file_reported_as_failure :
  returned (main 1 (no_stat 4096) ["locked"] initial_state) = Some EXIT_FAILURE
  /\ final_log (main 1 (no_stat 4096) ["locked"] initial_state)
     = [EOpen "locked" true; EFstat 3 false; EWarn "failed to do fstat" "locked";
        EPrint (ReportFailure "locked")].
Proof. split; vm_compute; reflexivity. Qed.

(** ** C9: no partial count *)

(** C9.  When the scan of a file fails, [fincore_fd] returns a status other
    than 0 together with the value of the counter, the pages counted so far;
    [main] drops that count, whatever it is: the one line it prints for the
    file is the failure line, the exit status becomes failure, and the loop
    goes on with the files left. *)
Theorem failed_scan_prints_failure_only k name rest fuel rc0 s fd size rc count s1 :
  k_open k name = inr fd -> 0 <= fd ->
  k_fstat k fd = inr size -> size <> 0 ->
  fincore_fd fuel k fd name (page_size k) size 0
    (State (vec s) (errno s) (log s ++ [EOpen name true; EFstat fd true]))
  = Ret (rc, count) s1 ->
  rc <> 0 ->
  exists s',
    main_loop fuel k (page_size k) (name :: rest) rc0 s
    = main_loop fuel k (page_size k) rest EXIT_FAILURE s'
    /\ log s' = log s1 ++ [EClose fd; EPrint (ReportFailure name)]
    /\ stdout (log s') = stdout (log s) ++ [ReportFailure name].
Proof.
  intros Hfd Hpos Hstat Hsize Hrun Hrc.
  pose proof (fincore_name_scan fuel k name (page_size k) None 0 s fd size
                rc count s1 Hfd Hpos Hstat Hsize Hrun) as Hname.
  destruct (fincore_fd_trace _ _ _ _ _ _ _ _ _ _ _ Hrun) as (t & Hlog & Htrace).
  apply scan_trace_stdout in Htrace.
  eexists. split; [exact (main_loop_failure _ _ _ _ rest rc0 _ _ _ _ _ Hname Hrc)|].
  simpl. rewrite <- app_assoc. split; [reflexivity|].
  rewrite Hlog. simpl. rewrite !stdout_app, Htrace. simpl.
  rewrite !app_nil_r. reflexivity.
Qed.

Lemma failed_scan_prints_failure_only_witness :
  (exists s1,
     fincore_fd 2 (second_window_unqueried 4096 134217729) 3 "a" 4096 134217729 0
       (State (vec initial_state) (errno initial_state)
          (log initial_state ++ [EOpen "a" true; EFstat 3 true]))
     = Ret (-12, 32768) s1) /\
  returned (main 2 (second_window_unqueried 4096 134217729) ["a"] initial_state)
  = Some EXIT_FAILURE /\
  stdout (final_log (main 2 (second_window_unqueried 4096 134217729) ["a"]
                       initial_state))
  = [ReportFailure "a"].
Proof.
  assert (Hcap : capacity_fits 4096) by limits.
  assert (Hoff : offsets_fit 4096 134217729) by limits.
  assert (Hok : window_ok (second_window_unqueried 4096 134217729) 3 134217729 0)
    by (split; reflexivity).
  destruct (scan_mincore_failure (second_window_unqueried 4096 134217729) 3 "a"
              134217729 1 2
              (State (vec initial_state) (errno initial_state)
                 (log initial_state ++ [EOpen "a" true; EFstat 3 true]))
              ENOMEM_pos Hcap Hoff eq_refl)
    as (s1 & Hrun & _).
  - intros i Hi. destruct i as [|i]; [exact Hok|lia].
  - reflexivity.
  - reflexivity.
  - reflexivity.
  - lia.
  - assert (Hres : resident_pages (second_window_unqueried 4096 134217729) 3 0
                      (Z.of_nat 1 * N_PAGES_IN_WINDOW) = 32768).
    { rewrite resident_pages_all_resident;
        [reflexivity|vm_compute; discriminate|intros; reflexivity]. }
    rewrite Hres in Hrun.
    destruct (failed_scan_prints_failure_only
                (second_window_unqueried 4096 134217729) "a" [] 2 EXIT_SUCCESS
                initial_state 3 134217729 (-12) 32768 s1
                eq_refl ltac:(lia) eq_refl ltac:(lia) Hrun ltac:(lia))
      as (s' & Hmain & _ & Hout).
    split; [exists s1; exact Hrun|].
    change (main 2 ?K ["a"]) with (main_loop 2 K (page_size K) ["a"] EXIT_SUCCESS).
    rewrite Hmain. split; [reflexivity|exact Hout].
Defined.

(** ** C10: the bounds of the residency vector *)

(** C10, at a page size of 64 KiB and a file of 32769 pages.  With
    [window_size = 2^64 - 2^31] the first window is the whole file, longer
    than the capacity of a window; [do_mincore] gets a page count of 32769
    for the 32768 entries of [vec] and the run leaves the array. *)
Theorem page_count_exceeds_vec_at_64k_pages :
  N_PAGES_IN_WINDOW = 32768
  /\ window_capacity 65536 = 2147483648
  /\ window_len (window_size 65536) 2147549184 0 = 2147549184
  /\ page_count 2147549184 65536 = 32769
  /\ crashed (fincore_fd 1 (linux_kernel 65536 2147549184) 3 "big" 65536
                2147549184 0 initial_state) = true.
Proof. repeat split; lazy; reflexivity. Qed.

(** * Further properties of the program *)

(** ** Lemmas on logs *)

Lemma mapped_bytes_app l1 l2 :
  mapped_bytes (l1 ++ l2) = mapped_bytes l1 + mapped_bytes l2.
Proof.
  induction l1 as [|e l1 IH]; simpl; [reflexivity|].
  fold (mapped_bytes (l1 ++ l2)). fold (mapped_bytes l1).
  destruct e as [| | |? ? ? []| | | | |]; lia.
Qed.

Lemma sum_flags_cons b l : sum_flags (b :: l) = resident_flag b + sum_flags l.
Proof. reflexivity. Qed.

Lemma sum_flags_cleared l : sum_flags (clear_flag <$> l) = 0.
Proof.
  induction l as [|b l IH]; [reflexivity|].
  rewrite fmap_cons, sum_flags_cons, IH.
  unfold clear_flag. destruct (Z.eqb_spec (resident_flag b) 0) as [H0|H0].
  - lia.
  - reflexivity.
Qed.

(** ** Runs of the scan, whatever the kernel answers *)

Section AnyAnswer.
Variables (k : kernel) (fd : Z) (name : string) (file_size : Z).
Hypothesis Hcap : capacity_fits (page_size k).
Hypothesis Hoff : offsets_fit (page_size k) file_size.

Local Abbreviation ps := (page_size k).

Lemma window_before_count i :
  window_start ps i < file_size -> (i < window_count ps file_size)%nat.
Proof.
  intros Hi. destruct Hcap as [Hp _]. destruct Hoff as [Hf _].
  destruct (Nat.lt_ge_cases i (window_count ps file_size)) as [Hlt|Hge];
    [exact Hlt|].
  pose proof (window_start_mono ps _ _ Hp Hge).
  pose proof (window_count_covers ps file_size Hp Hf). lia.
Qed.

Lemma window_call_in_file i ok :
  window_start ps i < file_size ->
  mmap_call_in_file ps file_size
    (EMmap fd (window_start ps i) (window_length ps file_size i) ok).
Proof.
  intros Hi. destruct Hcap as [Hp _].
  pose proof (window_start_nonneg k Hcap i).
  pose proof (window_length_bounds k file_size Hcap i Hi).
  simpl. repeat split; try lia.
  - rewrite window_start_pages. apply Z.mod_mul. lia.
  - unfold window_length. lia.
Qed.

(** What every run of the loop that returns has done. *)
Lemma loop_any_run fuel : forall i count s rc' c' s',
  vec_sized s ->
  0 <= count ->
  count + (cdiv file_size ps - pages_before ps file_size i) <= OFF_MAX ->
  fincore_fd_loop fuel k fd name ps file_size (window_capacity ps)
    (window_start ps i) 0 false count s = Ret (rc', c') s' ->
  vec_sized s'
  /\ count <= c' <= count + (cdiv file_size ps - pages_before ps file_size i)
  /\ exists t,
       log s' = log s ++ t
       /\ Forall (mmap_call_in_file ps file_size) t
       /\ (i + count_events is_mmap t
           <= Nat.max i (window_count ps file_size))%nat.
Proof.
  destruct Hcap as [Hp _].
  assert (Hend : forall i count s rc' c' s',
    file_size <= window_start ps i ->
    Ret (0, count) s = Ret (rc', c') s' ->
    vec_sized s ->
    vec_sized s'
    /\ count <= c' <= count + (cdiv file_size ps - pages_before ps file_size i)
    /\ exists t,
         log s' = log s ++ t
         /\ Forall (mmap_call_in_file ps file_size) t
         /\ (i + count_events is_mmap t
             <= Nat.max i (window_count ps file_size))%nat).
  { intros i count s rc' c' s' Hi Hrun Hs. injection Hrun as <- <- <-.
    pose proof (pages_before_le k file_size Hcap i).
    split; [exact Hs|]. split; [lia|].
    exists []. rewrite app_nil_r. split; [reflexivity|].
    split; [constructor|]. unfold count_events. simpl. lia. }
  induction fuel as [|fuel IH]; intros i count s rc' c' s' Hs Hc0 Hc1 Hrun.
  - simpl in Hrun.
    destruct (Z.ltb_spec (window_start ps i) file_size) as [Hi|Hi];
      [discriminate|].
    eapply Hend; eauto.
  - destruct (Z.lt_ge_cases (window_start ps i) file_size) as [Hi|Hi].
    + pose proof (pages_before_S ps file_size i Hp Hi) as HS.
      pose proof (pages_before_le k file_size Hcap (S i)) as Hle.
      pose proof (window_length_bounds k file_size Hcap i Hi) as Hlen.
      pose proof (cdiv_nonneg (window_length ps file_size i) ps Hp
                    ltac:(lia)) as Hn.
      pose proof (resident_pages_bounds k fd (pages_before ps file_size i)
                    (cdiv (window_length ps file_size i) ps) Hn) as Hres.
      pose proof (window_before_count i Hi) as Hwc.
      destruct (k_mmap k fd (window_start ps i)
                  (window_length ps file_size i)) as [e|] eqn:Hmap.
      { rewrite (loop_mmap_fail _ _ _ _ _ _ _ _ _ _ _ e) in Hrun
          by (rewrite ?(window_len_exact k file_size Hcap Hoff); assumption).
        rewrite (window_len_exact k file_size Hcap Hoff) in Hrun by exact Hi.
        injection Hrun as <- <- <-.
        split; [exact Hs|]. split; [lia|].
        eexists. split; [reflexivity|]. split.
        - apply Forall_cons. split; [apply window_call_in_file; exact Hi|].
          repeat constructor.
        - unfold count_events. simpl. lia. }
      destruct (k_mincore k fd (window_start ps i)
                  (window_length ps file_size i)) as [e|] eqn:Hquery.
      { rewrite (loop_mincore_fail _ _ _ _ _ _ _ _ _ _ _ _ e) in Hrun
          by (rewrite ?(window_len_exact k file_size Hcap Hoff); assumption).
        rewrite (window_len_exact k file_size Hcap Hoff) in Hrun by exact Hi.
        injection Hrun as <- <- <-.
        split; [exact Hs|]. split; [lia|].
        eexists. split; [reflexivity|]. split.
        - apply Forall_cons. split; [apply window_call_in_file; exact Hi|].
          repeat constructor.
        - unfold count_events. simpl. lia. }
      rewrite (loop_window_ok k fd name file_size Hcap Hoff) in Hrun
        by (try split; auto; lia).
      apply IH in Hrun; [| |lia|lia].
      * destruct Hrun as (Hs' & Hc' & t & Hlog & Hall & Hcount).
        split; [exact Hs'|]. split; [lia|].
        exists (window_events fd (window_start ps i)
                  (window_length ps file_size i) ++ t).
        split; [|split].
        -- rewrite Hlog. unfold after_window. simpl.
           rewrite <- app_assoc. reflexivity.
        -- apply Forall_app. split; [|exact Hall].
           apply Forall_cons. split; [apply window_call_in_file; exact Hi|].
           repeat constructor.
        -- rewrite count_events_app. unfold count_events at 1. simpl. lia.
      * apply (vec_sized_after_window k fd Hcap); [lia|exact Hs].
    + rewrite loop_done in Hrun by lia. eapply Hend; eauto.
Qed.


(** The value that the loop returns does not depend on the state it starts
    from. *)
Lemma loop_state_independent fuel : forall i count s1 s2,
  vec_sized s1 -> vec_sized s2 ->
  0 <= count ->
  count + (cdiv file_size ps - pages_before ps file_size i) <= OFF_MAX ->
  returned (fincore_fd_loop fuel k fd name ps file_size (window_capacity ps)
              (window_start ps i) 0 false count s1)
  = returned (fincore_fd_loop fuel k fd name ps file_size (window_capacity ps)
                (window_start ps i) 0 false count s2).
Proof.
  destruct Hcap as [Hp _].
  induction fuel as [|fuel IH]; intros i count s1 s2 Hs1 Hs2 Hc0 Hc1.
  - simpl. destruct (window_start ps i <? file_size); reflexivity.
  - destruct (Z.lt_ge_cases (window_start ps i) file_size) as [Hi|Hi].
    + pose proof (pages_before_S ps file_size i Hp Hi) as HS.
      pose proof (pages_before_le k file_size Hcap (S i)) as Hle.
      pose proof (window_length_bounds k file_size Hcap i Hi) as Hlen.
      pose proof (cdiv_nonneg (window_length ps file_size i) ps Hp
                    ltac:(lia)) as Hn.
      pose proof (resident_pages_bounds k fd (pages_before ps file_size i)
                    (cdiv (window_length ps file_size i) ps) Hn) as Hres.
      destruct (k_mmap k fd (window_start ps i)
                  (window_length ps file_size i)) as [e|] eqn:Hmap.
      { rewrite !(loop_mmap_fail _ _ _ _ _ _ _ _ _ _ _ e)
          by (rewrite ?(window_len_exact k file_size Hcap Hoff); assumption).
        reflexivity. }
      destruct (k_mincore k fd (window_start ps i)
                  (window_length ps file_size i)) as [e|] eqn:Hquery.
      { rewrite !(loop_mincore_fail _ _ _ _ _ _ _ _ _ _ _ _ e)
          by (rewrite ?(window_len_exact k file_size Hcap Hoff); assumption).
        reflexivity. }
      rewrite !(loop_window_ok k fd name file_size Hcap Hoff)
        by (try split; auto; lia).
      apply IH; [| |lia|lia];
        (apply (vec_sized_after_window k fd Hcap); [lia|assumption]).
    + rewrite !loop_done by lia. reflexivity.
Qed.
End AnyAnswer.

Lemma fincore_fd_any_run k fd name file_size fuel s rc c s' :
  capacity_fits (page_size k) ->
  offsets_fit (page_size k) file_size ->
  vec_sized s ->
  fincore_fd fuel k fd name (page_size k) file_size 0 s = Ret (rc, c) s' ->
  vec_sized s'
  /\ 0 <= c <= cdiv file_size (page_size k)
  /\ exists t,
       log s' = log s ++ t
       /\ Forall (mmap_call_in_file (page_size k) file_size) t
       /\ (count_events is_mmap t <= window_count (page_size k) file_size)%nat.
Proof.
  intros Hcap Hoff Hs Hrun.
  assert (Hp : 0 < page_size k) by apply Hcap.
  assert (Hf : 0 <= file_size) by apply Hoff.
  pose proof (file_pages_le k file_size Hcap Hoff) as Hle.
  pose proof (pages_before_0 (page_size k) file_size Hp Hf) as H0.
  unfold fincore_fd in Hrun. rewrite window_size_exact in Hrun by exact Hcap.
  apply (loop_any_run k fd name file_size Hcap Hoff fuel 0%nat) in Hrun;
    [|exact Hs|lia|lia].
  destruct Hrun as (Hs' & Hc & t & Hlog & Hall & Hcount).
  rewrite H0 in Hc. split; [exact Hs'|]. split; [lia|].
  exists t. split; [exact Hlog|split; [exact Hall|]].
  simpl in Hcount. lia.
Qed.


Lemma fincore_fd_state_independent k fd name file_size fuel s1 s2 :
  capacity_fits (page_size k) ->
  offsets_fit (page_size k) file_size ->
  vec_sized s1 -> vec_sized s2 ->
  returned (fincore_fd fuel k fd name (page_size k) file_size 0 s1)
  = returned (fincore_fd fuel k fd name (page_size k) file_size 0 s2).
Proof.
  intros Hcap Hoff Hs1 Hs2.
  assert (Hp : 0 < page_size k) by apply Hcap.
  assert (Hf : 0 <= file_size) by apply Hoff.
  pose proof (file_pages_le k file_size Hcap Hoff) as Hle.
  pose proof (pages_before_0 (page_size k) file_size Hp Hf) as H0.
  unfold fincore_fd. rewrite window_size_exact by exact Hcap.
  apply (loop_state_independent k fd name file_size Hcap Hoff fuel 0%nat);
    [exact Hs1|exact Hs2|lia|lia].
Qed.

Lemma mapped_bytes_windows pagesize file_size fd j : forall i,
  0 < pagesize ->
  (forall x, (i <= x < i + j)%nat -> window_start pagesize x < file_size) ->
  mapped_bytes (windows_events pagesize file_size fd i j)
  = Z.min (window_start pagesize (i + j)) file_size
    - Z.min (window_start pagesize i) file_size.
Proof.
  induction j as [|j IH]; intros i Hp Hwin.
  - rewrite Nat.add_0_r. unfold windows_events. simpl. lia.
  - pose proof (Hwin i ltac:(lia)) as Hi.
    change (windows_events pagesize file_size fd i (S j))
      with (window_events fd (window_start pagesize i)
              (window_length pagesize file_size i)
            ++ windows_events pagesize file_size fd (S i) j).
    rewrite mapped_bytes_app, IH by (auto; intros; apply Hwin; lia).
    replace (i + S j)%nat with (S i + j)%nat by lia.
    rewrite (window_start_S pagesize i).
    unfold window_events, mapped_bytes, window_length. simpl.
    assert (0 < window_capacity pagesize)
      by (unfold window_capacity, N_PAGES_IN_WINDOW; lia).
    lia.
Qed.

Lemma count_munmap_windows pagesize file_size fd j : forall i,
  count_events is_munmap (windows_events pagesize file_size fd i j) = j.
Proof.
  unfold windows_events.
  induction j as [|j IH]; intros i; simpl; [reflexivity|].
  change (count_events is_munmap (?a :: ?b :: ?c :: ?l))
    with (S (count_events is_munmap l)).
  f_equal. apply IH.
Qed.

(** The calls of a run that starts with status 0. *)
Lemma scan_trace_calls k fd name rc t rc' :
  scan_trace k fd name rc t rc' ->
  count_events is_mmap t
  = (count_events is_munmap t + count_events is_failed_mmap t
     + count_events is_failed_mincore t)%nat
  /\ (count_events is_failed_mmap t + count_events is_failed_mincore t)%nat
     = count_events is_warning t
  /\ (count_events is_warning t <= 1)%nat
  /\ count_events is_close t = 0%nat
  /\ (rc = 0 -> rc' <= 0 /\ (rc' = 0 <-> count_events is_warning t = 0%nat)).
Proof.
  induction 1 as [rc|rc off len e Hm|rc off len e Hm Hq
                 |rc off len t rc' Hm Hq _ IH].
  - repeat split; auto; lia.
  - unfold count_events. simpl. repeat split; auto; try lia;
      unfold EINVAL; intros; lia.
  - pose proof (warn_errno_pos k "failed to do mincore" name (Z.pos e)
                  ltac:(lia)).
    unfold count_events. simpl. repeat split; auto; try lia; intros; lia.
  - destruct IH as (Hcalls & Hfail & Hwarn & Hclose & Hrc).
    rewrite !count_events_app.
    unfold count_events at 1 3 5 7 9 11 13 15. simpl.
    split; [lia|]. split; [lia|]. split; [lia|]. split; [exact Hclose|].
    intros _. destruct (Hrc eq_refl) as [Hle Hiff].
    split; [exact Hle|]. exact Hiff.
Qed.

(** The log of a run is rounds that succeed and then one of the three ends;
    an end other than the first gives a status other than 0. *)
Lemma scan_trace_rounds k fd name rc t rc' :
  scan_trace k fd name rc t rc' ->
  exists rounds tail,
    t = rounds_events fd rounds ++ tail
    /\ scan_tail fd name tail
    /\ (tail = [] \/ rc' <> 0).
Proof.
  induction 1 as [rc|rc off len e Hm|rc off len e Hm Hq
                 |rc off len t rc' Hm Hq _ IH].
  - exists [], []. split; [reflexivity|]. split; [left; reflexivity|].
    left. reflexivity.
  - exists [], [EMmap fd off len false; EWarn "failed to do mmap" name].
    split; [reflexivity|]. split; [right; left; eauto|].
    right. discriminate.
  - exists [], [EMmap fd off len true; EMincore fd off len false;
                EWarn "failed to do mincore" name].
    split; [reflexivity|]. split; [right; right; eauto|].
    right. apply warn_errno_nonzero.
  - destruct IH as (rounds & tail & -> & Htail & Hrc).
    exists ((off, len) :: rounds), tail.
    split; [|split; assumption].
    unfold rounds_events. simpl. reflexivity.
Qed.

(** What a run of [fincore_name] that returns has done. *)
Lemma fincore_name_returns_cases fuel k name pagesize sb count s rc sb' c s' :
  fincore_name fuel k name pagesize sb count s = Ret (rc, sb', c) s' ->
  (exists ok,
     (forall fd, k_open k name = inr fd -> fd < 0)
     /\ log s' = log s ++ [EOpen name ok; EWarn "failed to open" name]
     /\ rc = 0 /\ sb' = sb /\ c = count /\ vec s' = vec s)
  \/ (exists fd e,
        k_open k name = inr fd /\ 0 <= fd /\ k_fstat k fd = inl e
        /\ log s' = log s ++ [EOpen name true; EFstat fd false;
                               EWarn "failed to do fstat" name]
        /\ rc = - warn_errno k "failed to do fstat" name (Z.pos e)
        /\ sb' = sb /\ c = count /\ vec s' = vec s)
  \/ (exists fd,
        k_open k name = inr fd /\ 0 <= fd /\ k_fstat k fd = inr 0
        /\ log s' = log s ++ [EOpen name true; EFstat fd true; EClose fd]
        /\ rc = 0 /\ sb' = Some 0 /\ c = count /\ vec s' = vec s)
  \/ (exists fd size s1,
        k_open k name = inr fd /\ 0 <= fd /\ k_fstat k fd = inr size
        /\ size <> 0
        /\ fincore_fd fuel k fd name pagesize size count
             (State (vec s) (errno s)
                (log s ++ [EOpen name true; EFstat fd true]))
           = Ret (rc, c) s1
        /\ log s' = log s1 ++ [EClose fd]
        /\ sb' = Some size /\ vec s' = vec s1).
Proof.
  intros Hrun. unfold fincore_name, bind, open in Hrun.
  destruct (k_open k name) as [e|fd] eqn:Hopen.
  - left. exists false.
    unfold warn, bind, emit, set_errno, ret, get_errno in Hrun.
    simpl in Hrun. injection Hrun as <- <- <- <-. simpl.
    rewrite <- app_assoc. repeat split; auto. discriminate.
  - unfold bind, emit, ret in Hrun. simpl in Hrun.
    destruct (Z.ltb_spec fd 0) as [Hneg|Hpos].
    + left. exists true.
      unfold warn, bind, emit, set_errno, ret, get_errno in Hrun.
      injection Hrun as <- <- <- <-. simpl. rewrite <- app_assoc.
      repeat split; auto. intros fd' [= <-]. exact Hneg.
    + right. unfold fstat in Hrun.
      destruct (k_fstat k fd) as [e|size] eqn:Hstat.
      * left. exists fd, e.
        unfold warn, bind, emit, set_errno, ret, get_errno in Hrun.
        simpl in Hrun. injection Hrun as <- <- <- <-. simpl.
        rewrite <- !app_assoc. repeat split; auto.
      * right. unfold bind, emit, ret in Hrun. simpl in Hrun.
        destruct (Z.eqb_spec size 0) as [->|Hne]; simpl in Hrun.
        -- left. exists fd. unfold close, emit in Hrun.
           injection Hrun as <- <- <- <-. simpl. rewrite <- !app_assoc.
           repeat split; auto.
        -- right. rewrite <- app_assoc in Hrun. simpl in Hrun.
           destruct (fincore_fd _ _ _ _ _ _ _ _) as [[rc1 c1] s1|s1|] eqn:Hscan;
             try discriminate.
           unfold close, emit in Hrun. injection Hrun as <- <- <- <-.
           exists fd, size, s1. repeat split; auto.
Qed.

Lemma fincore_name_log fuel k name pagesize sb count s rc sb' c s' :
  fincore_name fuel k name pagesize sb count s = Ret (rc, sb', c) s' ->
  exists t, log s' = log s ++ t /\ stdout t = [].
Proof.
  intros Hrun. apply fincore_name_returns_cases in Hrun.
  destruct Hrun as [(ok & _ & Hlog & _)|[(fd & e & _ & _ & _ & Hlog & _)
    |[(fd & _ & _ & _ & Hlog & _)
     |(fd & size & s1 & _ & _ & _ & _ & Hscan & Hlog & _)]]].
  - eexists. split; [exact Hlog|reflexivity].
  - eexists. split; [exact Hlog|reflexivity].
  - eexists. split; [exact Hlog|reflexivity].
  - apply fincore_fd_trace in Hscan. destruct Hscan as (t & Ht & Htrace).
    apply scan_trace_stdout in Htrace. simpl in Ht.
    exists ([EOpen name true; EFstat fd true] ++ t ++ [EClose fd]).
    split.
    + rewrite Hlog, Ht, <- !app_assoc. reflexivity.
    + rewrite !stdout_app, Htrace. reflexivity.
Qed.

(** A run that fails in the query on its second window, with the 32768
    pages of the first counted. *)
Lemma second_window_unqueried_run s :
  vec_sized s ->
  exists s',
    fincore_fd 2 (second_window_unqueried 4096 134217729) 3 "a" 4096 134217729
      0 s = Ret (-12, 32768) s'.
Proof.
  intros Hs.
  assert (Hcap : capacity_fits 4096) by limits.
  assert (Hoff : offsets_fit 4096 134217729) by limits.
  destruct (scan_mincore_failure (second_window_unqueried 4096 134217729) 3 "a"
              134217729 1 2 s ENOMEM_pos Hcap Hoff Hs) as (s' & Hrun & _).
  - intros i Hi. destruct i as [|i]; [split; reflexivity|lia].
  - reflexivity.
  - reflexivity.
  - reflexivity.
  - lia.
  - assert (Hres : resident_pages (second_window_unqueried 4096 134217729) 3 0
                      (Z.of_nat 1 * N_PAGES_IN_WINDOW) = 32768).
    { rewrite resident_pages_all_resident;
        [reflexivity|vm_compute; discriminate|intros; reflexivity]. }
    rewrite Hres in Hrun. exists s'. exact Hrun.
Qed.

(** ** [do_mincore]: the static vector *)

(** X1.  The result of [do_mincore] does not depend on what earlier calls
    left in the static array [vec]: from any two states it returns the same
    status and count.  After a query that succeeds, on [n] pages, none of
    the first [n] entries has its residency flag set and the entries from
    [n] on are as before. *)
Theorem do_mincore_ignores_stale_vec k fd off len name count s1 s2 :
  0 < page_size k <= INT_MAX ->
  0 <= len <= window_capacity (page_size k) ->
  vec_sized s1 -> vec_sized s2 ->
  0 <= count <= OFF_MAX - N_PAGES_IN_WINDOW ->
  returned (do_mincore k (Mapping fd off len) len name (page_size k) count s1)
  = returned (do_mincore k (Mapping fd off len) len name (page_size k) count s2)
  /\ (k_mincore k fd off len = None ->
      exists c s',
        do_mincore k (Mapping fd off len) len name (page_size k) count s1
        = Ret (0, c) s'
        /\ sum_flags (take (Z.to_nat (cdiv len (page_size k))) (vec s')) = 0
        /\ drop (Z.to_nat (cdiv len (page_size k))) (vec s')
           = drop (Z.to_nat (cdiv len (page_size k))) (vec s1)).
Proof.
  intros Hp Hlen Hs1 Hs2 Hcount.
  assert (Hn : 0 <= cdiv len (page_size k) <= N_PAGES_IN_WINDOW).
  { split; [apply cdiv_nonneg; lia|].
    apply cdiv_le_mul; [lia|]. unfold window_capacity in Hlen. lia. }
  assert (Hcap : window_capacity (page_size k) <= SIZE_MAX) by limits.
  destruct (k_mincore k fd off len) as [e|] eqn:Hq.
  - split; [|discriminate].
    rewrite !(do_mincore_fail k (Mapping fd off len) _ _ _ _ _ e Hq).
    reflexivity.
  - assert (Hok : forall s, vec_sized s ->
              do_mincore k (Mapping fd off len) len name (page_size k) count s
              = Ret (0, count + sum_flags (mincore_bytes k (Mapping fd off len) len))
                  (State ((clear_flag <$> mincore_bytes k (Mapping fd off len) len)
                          ++ drop (length (mincore_bytes k (Mapping fd off len) len))
                               (vec s))
                     (errno s) (log s ++ [EMincore fd off len true]))).
    { intros s Hs. apply do_mincore_ok; try assumption; try lia; limits. }
    rewrite (Hok s1 Hs1), (Hok s2 Hs2). split; [reflexivity|].
    intros _. eexists _, _. split; [reflexivity|]. simpl.
    rewrite <- (length_mincore_bytes k (Mapping fd off len) len).
    rewrite take_app_length' by (rewrite length_fmap; reflexivity).
    rewrite drop_app_length' by (rewrite length_fmap; reflexivity).
    split; [apply sum_flags_cleared|reflexivity].
Qed.

Lemma do_mincore_ignores_stale_vec_witness :
  vec_sized (State (replicate (Z.to_nat N_PAGES_IN_WINDOW) 1) 7 []) /\
  returned (do_mincore (resident_kernel 4096 4194) (Mapping 3 0 4194) 4194 "a"
              4096 0 initial_state)
  = returned (do_mincore (resident_kernel 4096 4194) (Mapping 3 0 4194) 4194 "a"
                4096 0 (State (replicate (Z.to_nat N_PAGES_IN_WINDOW) 1) 7 [])).
Proof.
  assert (Hdirty : vec_sized (State (replicate (Z.to_nat N_PAGES_IN_WINDOW) 1) 7 []))
    by apply length_replicate.
  split; [exact Hdirty|].
  refine (proj1 (do_mincore_ignores_stale_vec (resident_kernel 4096 4194) 3 0
                   4194 "a" 0 initial_state _ _ _ eq_refl Hdirty _)).
  - unfold INT_MAX. simpl. lia.
  - unfold window_capacity, N_PAGES_IN_WINDOW. simpl. lia.
  - unfold OFF_MAX, N_PAGES_IN_WINDOW. lia.
Defined.

(** ** [fincore_fd]: every run *)



(** X3.  When the capacity of a window, [N_PAGES_IN_WINDOW * pagesize],
    fits an [int] and the last window of the file ends within the range of
    [off_t]: whatever its status and whatever the kernel answers, the count
    that a scan returns is between 0 and the number of pages of the file (a
    scan that fails after some windows leaves a partial count in that
    range), and [vec] keeps its size.  The page sizes from 64 KiB on, whose
    capacity does not fit an [int], are not covered. *)
Theorem fincore_fd_count_within_file_pages k fd name file_size fuel s rc c s' :
  capacity_fits (page_size k) ->
  offsets_fit (page_size k) file_size ->
  vec_sized s ->
  fincore_fd fuel k fd name (page_size k) file_size 0 s = Ret (rc, c) s' ->
  0 <= c <= cdiv file_size (page_size k) /\ vec_sized s'.
Proof.
  intros Hcap Hoff Hs Hrun.
  destruct (fincore_fd_any_run k fd name file_size fuel s rc c s'
              Hcap Hoff Hs Hrun) as (Hs' & Hc & _).
  split; assumption.
Qed.

(** X4.  When the capacity of a window, [N_PAGES_IN_WINDOW * pagesize],
    fits an [int] and the last window of the file ends within the range of
    [off_t]: every [mmap] of a scan that returns is on a window of the file;
    its offset is not negative and a multiple of the page size, its length
    is positive and at most the capacity of a window, and it ends within the
    file.  The page sizes from 64 KiB on, whose capacity does not fit an
    [int], are not covered. *)
Theorem fincore_fd_maps_within_file k fd name file_size fuel s rc c s' :
  capacity_fits (page_size k) ->
  offsets_fit (page_size k) file_size ->
  vec_sized s ->
  fincore_fd fuel k fd name (page_size k) file_size 0 s = Ret (rc, c) s' ->
  exists t,
    log s' = log s ++ t
    /\ Forall (mmap_call_in_file (page_size k) file_size) t.
Proof.
  intros Hcap Hoff Hs Hrun.
  destruct (fincore_fd_any_run k fd name file_size fuel s rc c s'
              Hcap Hoff Hs Hrun) as (_ & _ & t & Hlog & Hall & _).
  exists t. split; assumption.
Qed.

Lemma fincore_fd_count_within_file_pages_witness :
  exists s',
    fincore_fd 2 (second_window_unqueried 4096 134217729) 3 "a" 4096 134217729
      0 initial_state = Ret (-12, 32768) s'
    /\ 0 <= 32768 <= cdiv 134217729 4096 /\ vec_sized s'.
Proof.
  assert (Hcap : capacity_fits 4096) by limits.
  assert (Hoff : offsets_fit 4096 134217729) by limits.
  destruct (second_window_unqueried_run initial_state eq_refl) as (s' & Hrun).
  exists s'. split; [exact Hrun|].
  exact (fincore_fd_count_within_file_pages
           (second_window_unqueried 4096 134217729) 3 "a" 134217729 2
           initial_state (-12) 32768 s' Hcap Hoff eq_refl Hrun).
Defined.

Lemma fincore_fd_maps_within_file_witness :
  exists s' t,
    fincore_fd 2 (second_window_unqueried 4096 134217729) 3 "a" 4096 134217729
      0 initial_state = Ret (-12, 32768) s'
    /\ log s' = log initial_state ++ t
    /\ Forall (mmap_call_in_file 4096 134217729) t.
Proof.
  assert (Hcap : capacity_fits 4096) by limits.
  assert (Hoff : offsets_fit 4096 134217729) by limits.
  destruct (second_window_unqueried_run initial_state eq_refl) as (s' & Hrun).
  destruct (fincore_fd_maps_within_file
              (second_window_unqueried 4096 134217729) 3 "a" 134217729 2
              initial_state (-12) 32768 s' Hcap Hoff eq_refl Hrun)
    as (t & Hlog & Hall).
  exists s', t. split; [exact Hrun|]. split; [exact Hlog|exact Hall].
Defined.

(** X5.  [fincore_fd] unmaps what it maps, at any page size.  The log of
    every run that returns is a sequence of rounds, each of them the [mmap]
    of a window, the query on it and the [munmap] of that same window, with
    the descriptor, the offset and the length of the [mmap]; after the
    rounds comes nothing more, or one [mmap] that failed and its warning, or
    the [mmap] of a window, the query on it that failed and its warning.  So
    every window that was mapped is unmapped before the next is mapped,
    except the window of a query that failed, which is the last and is left
    mapped; a run of status 0 ends with its rounds and leaves none. *)
Theorem fincore_fd_releases_windows fuel k fd name pagesize file_size count s rc c s' :
  fincore_fd fuel k fd name pagesize file_size count s = Ret (rc, c) s' ->
  exists rounds tail,
    log s' = log s ++ rounds_events fd rounds ++ tail
    /\ scan_tail fd name tail
    /\ (rc = 0 -> tail = []).
Proof.
  intros Hrun. apply fincore_fd_trace in Hrun.
  destruct Hrun as (t & Hlog & Htrace).
  destruct (scan_trace_rounds _ _ _ _ _ _ Htrace)
    as (rounds & tail & -> & Htail & Hrc).
  exists rounds, tail. split; [exact Hlog|]. split; [exact Htail|].
  intros Hzero. destruct Hrc as [Hnil|Hne]; [exact Hnil|contradiction].
Qed.

Lemma fincore_fd_releases_windows_witness :
  exists s' rounds tail,
    fincore_fd 2 (second_window_unqueried 4096 134217729) 3 "a" 4096 134217729
      0 initial_state = Ret (-12, 32768) s'
    /\ log s' = log initial_state ++ rounds_events 3 rounds ++ tail
    /\ scan_tail 3 "a" tail.
Proof.
  destruct (second_window_unqueried_run initial_state eq_refl) as (s' & Hrun).
  destruct (fincore_fd_releases_windows 2 (second_window_unqueried 4096 134217729)
              3 "a" 4096 134217729 0 initial_state (-12) 32768 s' Hrun)
    as (rounds & tail & Hlog & Htail & _).
  exists s', rounds, tail. split; [exact Hrun|]. split; [exact Hlog|exact Htail].
Defined.



(** X7.  When the capacity of a window, [N_PAGES_IN_WINDOW * pagesize],
    fits an [int], the last window of the file ends within the range of
    [off_t] and the fuel covers the windows of the file: a scan in which the
    kernel maps and queries every window of the file returns status 0 and
    covers the file once.  Its log is, for each window [i] of the file in
    order, the [mmap] of the bytes of window [i], the query on them and the
    [munmap] of that same window, and nothing else; the lengths of the
    windows it maps add up to the size of the file.  The page sizes from
    64 KiB on are not covered. *)
Theorem successful_scan_maps_whole_file k fd name file_size fuel s :
  capacity_fits (page_size k) ->
  offsets_fit (page_size k) file_size ->
  vec_sized s ->
  (forall i, (i < window_count (page_size k) file_size)%nat ->
     window_ok k fd file_size i) ->
  (window_count (page_size k) file_size <= fuel)%nat ->
  exists c s' t,
    fincore_fd fuel k fd name (page_size k) file_size 0 s = Ret (0, c) s'
    /\ log s' = log s ++ t
    /\ t = flat_map
             (fun i =>
                [EMmap fd (window_start (page_size k) i)
                   (window_length (page_size k) file_size i) true;
                 EMincore fd (window_start (page_size k) i)
                   (window_length (page_size k) file_size i) true;
                 EMunmap fd (window_start (page_size k) i)
                   (window_length (page_size k) file_size i)])
             (seq 0 (window_count (page_size k) file_size))
    /\ mapped_bytes t = file_size.
Proof.
  intros Hcap Hoff Hs Hwin Hfuel.
  assert (Hp : 0 < page_size k) by apply Hcap.
  assert (Hf : 0 <= file_size) by apply Hoff.
  destruct (scan_success k fd name file_size fuel s Hcap Hoff Hs Hwin Hfuel)
    as (s' & Hrun & _ & _ & Hlog).
  eexists _, s', _. split; [exact Hrun|]. split; [exact Hlog|].
  split; [reflexivity|].
  rewrite mapped_bytes_windows.
  - pose proof (window_count_covers (page_size k) file_size Hp Hf).
    unfold window_start at 2. simpl. lia.
  - exact Hp.
  - intros x Hx. apply window_count_last; [exact Hp|exact Hf|lia].
Qed.

Lemma successful_scan_maps_whole_file_witness :
  capacity_fits 4096 /\ offsets_fit 4096 134217729 /\
  exists c s' t,
    fincore_fd 2 (resident_kernel 4096 134217729) 3 "a" 4096 134217729 0
      initial_state = Ret (0, c) s'
    /\ log s' = log initial_state ++ t
    /\ t = [EMmap 3 0 134217728 true; EMincore 3 0 134217728 true;
            EMunmap 3 0 134217728;
            EMmap 3 134217728 1 true; EMincore 3 134217728 1 true;
            EMunmap 3 134217728 1]
    /\ mapped_bytes t = 134217729.
Proof.
  assert (Hcap : capacity_fits 4096) by limits.
  assert (Hoff : offsets_fit 4096 134217729) by limits.
  split; [exact Hcap|split; [exact Hoff|]].
  destruct (successful_scan_maps_whole_file (resident_kernel 4096 134217729)
              3 "a" 134217729 2 initial_state Hcap Hoff eq_refl)
    as (c & s' & t & Hrun & Hlog & Ht & Hbytes).
  - intros i _. split; reflexivity.
  - vm_compute. lia.
  - exists c, s', t.
    split; [exact Hrun|split; [exact Hlog|split; [exact Ht|exact Hbytes]]].
Defined.

(** ** [fincore_name] *)

(** X8.  When the capacity of a window, [N_PAGES_IN_WINDOW * pagesize],
    fits an [int] and the last window of the file ends within the range of
    [off_t]: what [fincore_name] returns does not depend on what the program
    did before.  For the same answers of the kernel, from any two states of
    the program, whatever [vec], [errno] and the log hold, it returns the
    same status, size and count, or returns in neither.  What earlier files
    left in the static [vec] or in [errno] does not show in the result of a
    later one. *)
Theorem fincore_name_ignores_earlier_state fuel k name sb s1 s2 :
  capacity_fits (page_size k) ->
  (forall fd size, k_open k name = inr fd -> k_fstat k fd = inr size ->
     offsets_fit (page_size k) size) ->
  vec_sized s1 -> vec_sized s2 ->
  returned (fincore_name fuel k name (page_size k) sb 0 s1)
  = returned (fincore_name fuel k name (page_size k) sb 0 s2).
Proof.
  intros Hcap Hfiles Hs1 Hs2. unfold fincore_name, bind, open.
  destruct (k_open k name) as [e|fd] eqn:Hopen; [reflexivity|].
  unfold bind, emit, ret. simpl.
  destruct (fd <? 0); [reflexivity|].
  unfold fstat. destruct (k_fstat k fd) as [e|size] eqn:Hstat; [reflexivity|].
  unfold bind, emit, ret. simpl.
  destruct (Z.eqb_spec size 0) as [->|Hne]; simpl; [reflexivity|].
  rewrite <- !app_assoc. simpl.
  pose proof (fincore_fd_state_independent k fd name size fuel
                (State (vec s1) (errno s1)
                   (log s1 ++ [EOpen name true; EFstat fd true]))
                (State (vec s2) (errno s2)
                   (log s2 ++ [EOpen name true; EFstat fd true]))
                Hcap (Hfiles fd size eq_refl Hstat) Hs1 Hs2) as Hind.
  destruct (fincore_fd fuel k fd name (page_size k) size 0
              (State (vec s1) _ _)) as [[rc1 c1] t1|t1|];
    destruct (fincore_fd fuel k fd name (page_size k) size 0
                (State (vec s2) _ _)) as [[rc2 c2] t2|t2|];
    simpl in Hind; try discriminate; try reflexivity.
  injection Hind as -> ->. reflexivity.
Qed.

Lemma fincore_name_ignores_earlier_state_witness :
  vec_sized (State (replicate (Z.to_nat N_PAGES_IN_WINDOW) 1) 7
               [EPrint (ReportFailure "b")]) /\
  returned (fincore_name 1 (resident_kernel 4096 4194) "a" 4096 None 0
              initial_state)
  = returned (fincore_name 1 (resident_kernel 4096 4194) "a" 4096 None 0
                (State (replicate (Z.to_nat N_PAGES_IN_WINDOW) 1) 7
                   [EPrint (ReportFailure "b")])).
Proof.
  assert (Hdirty : vec_sized (State (replicate (Z.to_nat N_PAGES_IN_WINDOW) 1) 7
                                [EPrint (ReportFailure "b")]))
    by apply length_replicate.
  split; [exact Hdirty|].
  refine (fincore_name_ignores_earlier_state 1 (resident_kernel 4096 4194) "a"
            None initial_state _ _ _ eq_refl Hdirty).
  - change (capacity_fits 4096). limits.
  - intros fd size _ [= <-]. change (offsets_fit 4096 4194). limits.
Defined.

(** X9.  [fincore_name] and the descriptor, at any page size.  In every run
    that returns: when [open] fails nothing is closed and the status is 0;
    when [fstat] fails the descriptor is left open and the status is minus
    [errno] as [warn] leaves it, a negative number, which is minus the error
    number of [fstat] when the warning is written and minus that of the
    write to standard error when it is not; when [fstat] succeeds the
    descriptor is closed once, as the last call, whether or not the scan
    failed.  Nothing is printed on standard output. *)
Theorem fincore_name_closes_descriptor fuel k name pagesize sb count s rc sb' c s' :
  fincore_name fuel k name pagesize sb count s = Ret (rc, sb', c) s' ->
  exists t,
    log s' = log s ++ t
    /\ stdout t = []
    /\ match k_open k name with
       | inl _ => count_events is_close t = 0%nat /\ rc = 0 /\ sb' = sb
       | inr fd =>
           if fd <? 0 then count_events is_close t = 0%nat /\ rc = 0 /\ sb' = sb
           else
             match k_fstat k fd with
             | inl e =>
                 count_events is_close t = 0%nat /\ sb' = sb
                 /\ rc = - warn_errno k "failed to do fstat" name (Z.pos e)
                 /\ rc < 0
                 /\ (k_warn k "failed to do fstat" name = None ->
                     rc = - Z.pos e)
                 /\ (forall e', k_warn k "failed to do fstat" name = Some e' ->
                     rc = - Z.pos e')
             | inr size =>
                 count_events is_close t = 1%nat
                 /\ last t = Some (EClose fd) /\ sb' = Some size
             end
       end.
Proof.
  intros Hrun.
  apply fincore_name_returns_cases in Hrun.
  destruct Hrun as [(ok & Hfd & Hlog & -> & -> & _)
    |[(fd & e & Hopen & Hpos & Hstat & Hlog & -> & -> & _)
     |[(fd & Hopen & Hpos & Hstat & Hlog & -> & -> & _)
      |(fd & size & s1 & Hopen & Hpos & Hstat & Hne & Hscan & Hlog & -> & _)]]].
  - eexists. split; [exact Hlog|]. split; [reflexivity|].
    destruct (k_open k name) as [e|fd] eqn:Hopen; [auto|].
    pose proof (Hfd fd eq_refl) as Hneg.
    destruct (Z.ltb_spec fd 0); [auto|lia].
  - eexists. split; [exact Hlog|]. split; [reflexivity|].
    rewrite Hopen, Hstat. destruct (Z.ltb_spec fd 0); [lia|].
    pose proof (warn_errno_pos k "failed to do fstat" name (Z.pos e)
                  ltac:(lia)) as Hneg.
    split; [reflexivity|]. split; [reflexivity|]. split; [reflexivity|].
    split; [lia|]. unfold warn_errno.
    split; [intros ->; reflexivity|intros e' ->; reflexivity].
  - eexists. split; [exact Hlog|]. split; [reflexivity|].
    rewrite Hopen, Hstat. destruct (Z.ltb_spec fd 0); [lia|]. auto.
  - rewrite Hopen, Hstat. destruct (Z.ltb_spec fd 0); [lia|].
    apply fincore_fd_trace in Hscan. destruct Hscan as (t & Ht & Htrace).
    destruct (scan_trace_calls _ _ _ _ _ _ Htrace) as (_ & _ & _ & Hclose & _).
    apply scan_trace_stdout in Htrace. simpl in Ht.
    exists (([EOpen name true; EFstat fd true] ++ t) ++ [EClose fd]).
    split; [|split; [|split; [|split; [|reflexivity]]]].
    + rewrite Hlog, Ht, <- !app_assoc. reflexivity.
    + rewrite !stdout_app, Htrace. reflexivity.
    + rewrite !count_events_app, Hclose. reflexivity.
    + apply last_snoc.
Qed.

Lemma fincore_name_closes_descriptor_witness :
  exists s' t,
    fincore_name 1 (no_stat 4096) "locked" 4096 None 0 initial_state
    = Ret (-5, None, 0) s'
    /\ log s' = log initial_state ++ t
    /\ count_events is_close t = 0%nat
    /\ -5 < 0.
Proof.
  pose proof (fincore_name_fstat_fail 1 (no_stat 4096) "locked" 4096 None 0
                initial_state 3 EIO_pos eq_refl ltac:(lia) eq_refl) as Hrun.
  destruct (fincore_name_closes_descriptor 1 (no_stat 4096) "locked" 4096 None 0
              initial_state (-5) None 0 _ Hrun) as (t & Hlog & _ & Hclose).
  eexists _, t. split; [exact Hrun|]. split; [exact Hlog|].
  split; [exact (proj1 Hclose)|].
  exact (proj1 (proj2 (proj2 (proj2 Hclose)))).
Defined.

(** ** [main] *)

(** X10.  [main] reports every operand: in every run of the loop that
    returns, one line is printed for each file, in the order of the
    operands, and the exit status is failure exactly when it was failure
    before or one of the lines is the failure line. *)
Theorem main_loop_reports_every_file fuel k pagesize names : forall rc0 s rc s',
  main_loop fuel k pagesize names rc0 s = Ret rc s' ->
  exists t,
    log s' = log s ++ t
    /\ report_name <$> stdout t = names
    /\ rc = if existsb is_failure_line (stdout t) then EXIT_FAILURE else rc0.
Proof.
  induction names as [|name rest IH]; intros rc0 s rc s' Hrun.
  - simpl in Hrun. injection Hrun as <- <-. exists [].
    rewrite app_nil_r. repeat split.
  - simpl in Hrun. unfold bind at 1 in Hrun.
    destruct (fincore_name fuel k name pagesize None 0 s)
      as [[[r sb] c] s1|s1|] eqn:Hname; try discriminate.
    apply fincore_name_log in Hname. destruct Hname as (t1 & Hlog1 & Hout1).
    destruct (r =? 0).
    + unfold bind, report_count, emit in Hrun. simpl in Hrun.
      apply IH in Hrun. destruct Hrun as (t & Hlog & Hnames & Hrc).
      exists (t1 ++ [EPrint (ReportCount name sb c)] ++ t).
      simpl in Hlog. split; [|split].
      * rewrite Hlog, Hlog1, <- !app_assoc. reflexivity.
      * rewrite !stdout_app, Hout1, app_nil_l, fmap_app, Hnames.
        reflexivity.
      * rewrite !stdout_app, Hout1. simpl. exact Hrc.
    + unfold bind, report_failure, emit in Hrun. simpl in Hrun.
      apply IH in Hrun. destruct Hrun as (t & Hlog & Hnames & Hrc).
      exists (t1 ++ [EPrint (ReportFailure name)] ++ t).
      simpl in Hlog. split; [|split].
      * rewrite Hlog, Hlog1, <- !app_assoc. reflexivity.
      * rewrite !stdout_app, Hout1, app_nil_l, fmap_app, Hnames.
        reflexivity.
      * rewrite !stdout_app, Hout1. simpl.
        destruct (existsb is_failure_line (stdout t)); exact Hrc.
Qed.



Lemma main_loop_reports_every_file_witness :
  exists s' t,
    main_loop 1 (no_stat 4096) 4096 ["a"; "b"] EXIT_SUCCESS initial_state
    = Ret EXIT_FAILURE s'
    /\ log s' = log initial_state ++ t
    /\ report_name <$> stdout t = ["a"; "b"].
Proof.
  assert (Hret : returned (main_loop 1 (no_stat 4096) 4096 ["a"; "b"]
                             EXIT_SUCCESS initial_state) = Some EXIT_FAILURE)
    by (vm_compute; reflexivity).
  revert Hret.
  destruct (main_loop 1 (no_stat 4096) 4096 ["a"; "b"] EXIT_SUCCESS
              initial_state) as [rc s'|s'|] eqn:Hrun;
    intros Hret; try discriminate Hret.
  injection Hret as ->.
  destruct (main_loop_reports_every_file 1 (no_stat 4096) 4096 ["a"; "b"]
              EXIT_SUCCESS initial_state EXIT_FAILURE s' Hrun)
    as (t & Hlog & Hnames & _).
  exists s', t. split; [reflexivity|]. split; [exact Hlog|exact Hnames].
Defined.


(** ** [close_stream] and [close_stdout] *)

(** X12.  [close_stream] and [errno].  The result is 0 or [EOF]; a stream
    whose error indicator is set gives [EOF] even when [fclose] succeeds.
    After [EOF], [errno] says why: it is the error number of [fclose] when
    [fclose] failed, and otherwise, the failure being an earlier one, it is
    0, or [EPIPE] if it was [EPIPE] before the call; no other stale value
    is left.  The result is 0 for a stream without error whose [fclose]
    succeeded, or failed with [EBADF] on an empty buffer. *)
Theorem close_stream_errno st e :
  (fst (close_stream st e) = 0 \/ fst (close_stream st e) = EOF)
  /\ (ferror st = true -> fst (close_stream st e) = EOF)
  /\ (fst (close_stream st e) = EOF ->
      match fclose_errno st with
      | Some fe => snd (close_stream st e) = Z.pos fe
      | None =>
          ferror st = true
          /\ (snd (close_stream st e) = 0
              \/ (snd (close_stream st e) = EPIPE /\ e = EPIPE))
      end)
  /\ (fst (close_stream st e) = 0 ->
      ferror st = false
      /\ match fclose_errno st with
         | None => snd (close_stream st e) = e
         | Some fe =>
             fpending st = 0 /\ Z.pos fe = EBADF
             /\ snd (close_stream st e) = EBADF
         end).
Proof.
  destruct st as [p f [fe|]]; unfold close_stream;
    cbn [fpending ferror fclose_errno];
    destruct f; cbn [negb andb orb fst snd];
    try destruct (Z.eqb_spec p 0); cbn [negb andb orb fst snd];
    try destruct (Z.eqb_spec (Z.pos fe) EBADF); cbn [negb andb orb fst snd];
    try destruct (Z.eqb_spec e EPIPE); cbn [negb andb orb fst snd];
    unfold EOF;
    repeat split; intros; try discriminate; try lia; auto.
Qed.

Lemma close_stream_errno_witness :
  ferror failed_write = true /\
  fst (close_stream failed_write 28) = EOF /\
  snd (close_stream failed_write 28) = 0.
Proof.
  destruct (close_stream_errno failed_write 28) as (_ & Heof & Herrno & _).
  pose proof (Heof eq_refl) as Hr.
  split; [reflexivity|]. split; [exact Hr|].
  destruct (Herrno Hr) as [_ [H0|[_ Hpipe]]]; [exact H0|discriminate Hpipe].
Defined.

(** X13.  [close_stdout] turns a write error into the exit status.
    - It leaves with [_exit] only with [CLOSE_EXIT_CODE], which is
      [EXIT_FAILURE].
    - A standard output whose error indicator is set while [fclose]
      succeeds ends the process with the plain message, unless [errno] was
      [EPIPE] before.
    - An [fclose] of standard output that fails with an error other than
      [EPIPE] ends the process with the message of that error, on one
      condition: the error indicator is set, or bytes were pending, or the
      error is not [EBADF].
    - Where that condition fails, an [fclose] that fails with [EBADF] on a
      stream with no error and nothing pending, there is no message and the
      outcome is that of closing standard error.
    - An [fclose] that fails with [EPIPE] gives no message either, and the
      outcome is that of closing standard error.
    - Two streams without error that close without error return. *)
Theorem close_stdout_outcome out err e :
  (forall status msg,
     close_stdout out err e = Exited status msg -> status = EXIT_FAILURE)
  /\ (ferror out = true -> fclose_errno out = None -> e <> EPIPE ->
      close_stdout out err e = Exited EXIT_FAILURE (Some WriteErrorPlain))
  /\ (forall fe,
        fclose_errno out = Some fe -> Z.pos fe <> EPIPE ->
        ferror out = true \/ fpending out <> 0 \/ Z.pos fe <> EBADF ->
        close_stdout out err e
        = Exited EXIT_FAILURE (Some (WriteErrorErrno (Z.pos fe))))
  /\ (fclose_errno out = Some 9%positive ->
      ferror out = false -> fpending out = 0 ->
      close_stdout out err e
      = if fst (close_stream err EBADF) =? 0 then Returned
        else Exited EXIT_FAILURE None)
  /\ (fclose_errno out = Some 32%positive ->
      close_stdout out err e
      = if fst (close_stream err EPIPE) =? 0 then Returned
        else Exited EXIT_FAILURE None)
  /\ (ferror out = false -> fclose_errno out = None ->
      ferror err = false -> fclose_errno err = None ->
      close_stdout out err e = Returned).
Proof.
  destruct out as [p f fe]. cbn [fpending ferror fclose_errno].
  split; [|split; [|split; [|split; [|split]]]].
  - intros status msg. unfold close_stdout.
    destruct (close_stream (Stream p f fe) e) as [r e1].
    destruct (negb (r =? 0) && negb (e1 =? EPIPE)).
    + intros [= <- _]. reflexivity.
    + destruct (close_stream err e1) as [r2 e2].
      destruct (negb (r2 =? 0)); [|discriminate].
      intros [= <- _]. reflexivity.
  - intros -> -> He. unfold close_stdout, close_stream.
    cbn [fpending ferror fclose_errno negb andb orb].
    destruct (Z.eqb_spec e EPIPE); [contradiction|].
    cbn [negb andb orb]. change (EOF =? 0) with false.
    change (0 =? EPIPE) with false. cbn [negb andb orb].
    change (0 =? 0) with true. reflexivity.
  - intros fe' -> Hpipe Hwhy. unfold close_stdout.
    assert (Hout : close_stream (Stream p f (Some fe')) e = (EOF, Z.pos fe')).
    { unfold close_stream. cbn [fpending ferror fclose_errno negb andb orb].
      destruct f; cbn [negb andb orb]; [reflexivity|].
      destruct (Z.eqb_spec p 0) as [Hp|Hp];
        destruct (Z.eqb_spec (Z.pos fe') EBADF) as [Hb|Hb];
        cbn [negb andb orb]; try reflexivity.
      destruct Hwhy as [Hf|[Hq|Hq]]; [discriminate|contradiction|contradiction]. }
    rewrite Hout. change (EOF =? 0) with false.
    destruct (Z.eqb_spec (Z.pos fe') EPIPE); [contradiction|].
    cbn [negb andb orb]. change (Z.pos fe' =? 0) with false. reflexivity.
  - intros -> -> ->. unfold close_stdout.
    change (close_stream (Stream 0 false (Some 9%positive)) e) with (0, EBADF).
    cbv beta iota. change (0 =? 0) with true. cbn [negb andb].
    destruct (close_stream err EBADF) as [r2 e2]. cbn [fst].
    destruct (r2 =? 0); reflexivity.
  - intros ->. unfold close_stdout.
    assert (Hout : snd (close_stream (Stream p f (Some 32%positive)) e) = EPIPE).
    { unfold close_stream. cbn [fpending ferror fclose_errno negb andb orb].
      destruct f; cbn [negb andb orb];
        [reflexivity|destruct (p =? 0); reflexivity]. }
    destruct (close_stream (Stream p f (Some 32%positive)) e) as [r e1].
    cbn [snd] in Hout. subst e1. change (EPIPE =? EPIPE) with true.
    cbn [negb]. rewrite Bool.andb_false_r.
    destruct (close_stream err EPIPE) as [r2 e2]. cbn [fst].
    destruct (r2 =? 0); reflexivity.
  - intros -> -> Herr Hclose. destruct err as [p2 f2 fe2].
    cbn [ferror fclose_errno] in Herr, Hclose. subst. reflexivity.
Qed.

Lemma close_stdout_outcome_witness :
  close_stdout failed_write clean_stream 0
  = Exited EXIT_FAILURE (Some WriteErrorPlain)
  /\ close_stdout broken_pipe clean_stream 0 = Returned
  /\ close_stdout clean_stream clean_stream 0 = Returned.
Proof.
  destruct (close_stdout_outcome failed_write clean_stream 0)
    as (_ & Hplain & _).
  destruct (close_stdout_outcome broken_pipe clean_stream 0)
    as (_ & _ & _ & _ & Hpipe & _).
  destruct (close_stdout_outcome clean_stream clean_stream 0)
    as (_ & _ & _ & _ & _ & Hclean).
  split; [|split].
  - apply Hplain; [reflexivity|reflexivity|discriminate].
  - exact (Hpipe eq_refl).
  - apply Hclean; reflexivity.
Defined.

(** ** Page sizes from 64 KiB on *)

(** X14.  At a page size that is a power of two from 64 KiB on, where
    [N_PAGES_IN_WINDOW * pagesize] does not fit an [int], no scan of a file
    that is not empty ends with status 0, whatever the kernel answers
    (the overflow taken as the wrap-around of the machine). *)
Theorem large_pages_never_succeed k fd name file_size fuel s rc c s' a :
  16 <= a <= 30 -> page_size k = 2 ^ a ->
  0 < file_size <= OFF_MAX - 2 ^ 31 ->
  vec_sized s ->
  fincore_fd fuel k fd name (page_size k) file_size 0 s = Ret (rc, c) s' ->
  rc <> 0.
Proof.
  intros Ha Hps Hf Hs Hrun.
  destruct (Z.eq_dec a 16) as [->|Hne].
  - change (2 ^ 16) with 65536 in Hps. rewrite Hps in Hrun.
    eapply loop_64k_window; eauto.
  - unfold fincore_fd in Hrun. rewrite Hps, window_size_zero in Hrun by lia.
    eapply loop_zero_window; [|exact Hrun]. lia.
Qed.

Lemma large_pages_never_succeed_witness :
  page_size (linux_kernel 65536 1) = 2 ^ 16 /\
  exists s',
    fincore_fd 2 (linux_kernel 65536 1) 3 "f" 65536 1 0 initial_state
    = Ret (-22, 1) s'
    /\ -22 <> 0.
Proof.
  split; [reflexivity|].
  assert (Hret : returned (fincore_fd 2 (linux_kernel 65536 1) 3 "f" 65536 1 0
                             initial_state) = Some (-22, 1))
    by (vm_compute; reflexivity).
  revert Hret.
  destruct (fincore_fd 2 (linux_kernel 65536 1) 3 "f" 65536 1 0 initial_state)
    as [[rc c] s'|s'|] eqn:Hrun; intros Hret; try discriminate Hret.
  injection Hret as -> ->.
  exists s'. split; [reflexivity|].
  refine (large_pages_never_succeed (linux_kernel 65536 1) 3 "f" 1 2
            initial_state (-22) 1 s' 16 _ eq_refl _ eq_refl Hrun).
  - lia.
  - unfold OFF_MAX. lia.
Defined.

(** ** The count of a scan, below 64 KiB pages *)

(** X15.  The count of a scan that succeeds, for the files whose last window
    ends within the range of [off_t].  First, at a page size that is a power
    of two, [2^0] to [2^30], and for every answer of the kernel, a scan that
    ends with status 0 has returned the sum, over the pages
    [0 <= p < ceil(file_size / page_size)], of the residency flag that the
    query reports for [p].  Second, when the capacity of a window,
    [N_PAGES_IN_WINDOW * pagesize], fits an [int], the kernel maps and
    queries every window of the file and the fuel covers the windows, the
    scan does end with status 0 and that sum; if moreover every page is
    resident the sum is the number of pages of the file (256 for 1 MiB at
    4 KiB).  The second part does not cover the page sizes from 64 KiB on,
    at which no scan of a file that is not empty ends with status 0. *)
Theorem fincore_fd_counts_resident_pages k fd name file_size :
  (forall a fuel s count s',
     0 <= a <= 30 -> page_size k = 2 ^ a ->
     offsets_fit (page_size k) file_size ->
     vec_sized s ->
     fincore_fd fuel k fd name (page_size k) file_size 0 s = Ret (0, count) s' ->
     count = resident_pages k fd 0 (cdiv file_size (page_size k)))
  /\ (forall fuel s,
        capacity_fits (page_size k) ->
        offsets_fit (page_size k) file_size ->
        vec_sized s ->
        (forall i, (i < window_count (page_size k) file_size)%nat ->
           window_ok k fd file_size i) ->
        (window_count (page_size k) file_size <= fuel)%nat ->
        exists s',
          fincore_fd fuel k fd name (page_size k) file_size 0 s
          = Ret (0, resident_pages k fd 0 (cdiv file_size (page_size k))) s'
          /\ ((forall p, 0 <= p < cdiv file_size (page_size k) ->
                resident_flag (k_page_byte k fd p) = 1) ->
              resident_pages k fd 0 (cdiv file_size (page_size k))
              = cdiv file_size (page_size k))).
Proof.
  split.
  - intros a fuel s count s' Ha Hps Hoff Hs Hrun.
    exact (scan_success_exact k fd name file_size fuel s count s' a
             Ha Hps Hoff Hs Hrun).
  - intros fuel s Hcap Hoff Hs Hwin Hfuel.
    destruct (scan_success k fd name file_size fuel s Hcap Hoff Hs Hwin Hfuel)
      as (s' & Heq & _).
    exists s'. split; [exact Heq|].
    intros Hall. apply resident_pages_all_resident.
    + apply cdiv_nonneg; [apply Hcap|apply Hoff].
    + intros p Hp. apply Hall. lia.
Qed.

Lemma fincore_fd_counts_resident_pages_witness :
  capacity_fits 4096 /\ offsets_fit 4096 1048576 /\ vec_sized initial_state /\
  page_size (resident_kernel 4096 1048576) = 2 ^ 12 /\
  exists s',
    fincore_fd 1 (resident_kernel 4096 1048576) 3 "a" 4096 1048576 0
      initial_state = Ret (0, 256) s'
    /\ 256 = resident_pages (resident_kernel 4096 1048576) 3 0
               (cdiv 1048576 4096).
Proof.
  assert (Hcap : capacity_fits 4096) by limits.
  assert (Hoff : offsets_fit 4096 1048576) by limits.
  assert (Hvec : vec_sized initial_state) by reflexivity.
  split; [exact Hcap|split; [exact Hoff|split; [exact Hvec|]]].
  split; [reflexivity|].
  destruct (fincore_fd_counts_resident_pages (resident_kernel 4096 1048576)
              3 "a" 1048576) as [Hexact Hscan].
  destruct (Hscan 1%nat initial_state Hcap Hoff Hvec) as (s' & Heq & Hall).
  - intros i _. split; reflexivity.
  - vm_compute. lia.
  - exists s'. rewrite Hall in Heq by (intros; reflexivity).
    split; [exact Heq|].
    exact (Hexact 12 1%nat initial_state 256 s' ltac:(lia) eq_refl Hoff Hvec Heq).
Defined.

(** ** A query that fails *)

(** X16.  A failed [mincore] ends the scan of the file.  First, for every
    run of [fincore_fd] that returns, at any page size: the log of the run
    has at most one failed [mincore]; if it has one the log ends with the
    [mmap] of that window, the failed query and its warning, and the status
    is minus [errno] as [warn] leaves it, a negative number, which is minus
    the error number of the query when the warning is written.  Second,
    when the capacity of a window fits an [int], the last window of the file
    ends within the range of [off_t] and the query on window [j] fails with
    error number [e], the windows before it having gone through, the run
    does return that status: the log is the rounds of windows [0] to
    [j - 1], the [mmap] of window [j], the failed query and its warning, so
    that no window after [j] was mapped or queried. *)
Theorem mincore_failure_aborts_scan k fd name file_size :
  (forall fuel pagesize count s rc c s',
     fincore_fd fuel k fd name pagesize file_size count s = Ret (rc, c) s' ->
     exists t,
       log s' = log s ++ t
       /\ (count_events is_failed_mincore t = 0%nat
           \/ exists rounds off len e,
                t = rounds ++ [EMmap fd off len true;
                               EMincore fd off len false;
                               EWarn "failed to do mincore" name]
                /\ count_events is_failed_mincore rounds = 0%nat
                /\ k_mincore k fd off len = Some e
                /\ rc = - warn_errno k "failed to do mincore" name (Z.pos e)
                /\ rc < 0
                /\ (k_warn k "failed to do mincore" name = None ->
                    rc = - Z.pos e)))
  /\ (forall j fuel s e,
        capacity_fits (page_size k) ->
        offsets_fit (page_size k) file_size ->
        vec_sized s ->
        (forall i, (i < j)%nat -> window_ok k fd file_size i) ->
        window_start (page_size k) j < file_size ->
        k_mmap k fd (window_start (page_size k) j)
          (window_length (page_size k) file_size j) = None ->
        k_mincore k fd (window_start (page_size k) j)
          (window_length (page_size k) file_size j) = Some e ->
        (j < fuel)%nat ->
        exists count s' new,
          fincore_fd fuel k fd name (page_size k) file_size 0 s
          = Ret (- warn_errno k "failed to do mincore" name (Z.pos e), count) s'
          /\ errno s' = warn_errno k "failed to do mincore" name (Z.pos e)
          /\ log s' = log s ++ new
          /\ new = windows_events (page_size k) file_size fd 0 j
                   ++ [EMmap fd (window_start (page_size k) j)
                         (window_length (page_size k) file_size j) true;
                       EMincore fd (window_start (page_size k) j)
                         (window_length (page_size k) file_size j) false;
                       EWarn "failed to do mincore" name]
          /\ count_events is_mmap new = S j
          /\ count_events is_mincore new = S j).
Proof.
  split.
  - intros fuel pagesize count s rc c s' Hrun.
    apply fincore_fd_trace in Hrun. destruct Hrun as (t & Hlog & Htrace).
    exists t. split; [exact Hlog|].
    destruct (scan_trace_mincore _ _ _ _ _ _ Htrace)
      as [Hnone|(rounds & off & len & e & Ht & Hf & Hw & Hk & Hrc)].
    + left. exact Hnone.
    + right. exists rounds, off, len, e.
      pose proof (warn_errno_pos k "failed to do mincore" name (Z.pos e)
                    ltac:(lia)).
      split; [exact Ht|]. split; [exact Hf|]. split; [exact Hk|].
      split; [exact Hrc|]. split; [lia|].
      intros Hw'. rewrite Hrc, warn_errno_written by exact Hw'. reflexivity.
  - intros j fuel s e Hcap Hoff Hs Hwin Hj Hm He Hfuel.
    destruct (scan_mincore_failure k fd name file_size j fuel s e
                Hcap Hoff Hs Hwin Hj Hm He Hfuel)
      as (s' & Hrun & _ & Herr & Hlog).
    eexists _, s', _. split; [exact Hrun|].
    split; [exact Herr|]. split; [exact Hlog|]. split; [reflexivity|].
    rewrite !count_events_app, count_mmap_windows, count_mincore_windows.
    unfold count_events. simpl. split; lia.
Qed.

Lemma mincore_failure_aborts_scan_witness :
  window_start 4096 0 < 4194 /\
  k_mincore (unqueried 4096 4194 (Some EBADF_pos)) 3 (window_start 4096 0)
    (window_length 4096 4194 0) = Some EAGAIN_pos /\
  exists count s',
    fincore_fd 1 (unqueried 4096 4194 (Some EBADF_pos)) 3 "a" 4096 4194
      0 initial_state = Ret (-9, count) s'
    /\ errno s' = 9
    /\ count_events is_mmap (log s') = 1%nat
    /\ exists t, log s' = log initial_state ++ t.
Proof.
  assert (Hcap : capacity_fits 4096) by limits.
  assert (Hoff : offsets_fit 4096 4194) by limits.
  assert (Hvec : vec_sized initial_state) by reflexivity.
  assert (Hlt : window_start 4096 0 < 4194) by reflexivity.
  destruct (mincore_failure_aborts_scan (unqueried 4096 4194 (Some EBADF_pos))
              3 "a" 4194) as [Hany Hfail].
  destruct (Hfail 0%nat 1%nat initial_state EAGAIN_pos Hcap Hoff Hvec)
    as (count & s' & new & Hrun & Herr & Hlog & _ & Hmaps & _).
  - intros i Hi. lia.
  - exact Hlt.
  - reflexivity.
  - reflexivity.
  - lia.
  - split; [exact Hlt|split; [reflexivity|]].
    exists count, s'. split; [exact Hrun|]. split; [exact Herr|].
    destruct (Hany 1%nat 4096 0 initial_state (-9) count s' Hrun)
      as (t & Ht & _).
    split; [rewrite Hlog; exact Hmaps|]. exists t. exact Ht.
Defined.
